(** * proto_detail_file: the detail-file reader and acknowledger

    A shallow embedding of [mod_read] ("read next record"),
    [mod_write] ("acknowledge"), [mod_open], [mod_detach], [mod_decode]
    and [mod_fd] of src/modules/proto_detail/proto_detail_file.c, with
    the POSIX file they drive, and the properties of the record stream
    they implement.

    Conventions.
    - A byte is [Byte.byte]; the caller's buffer is a [list byte] whose
      length is the C argument [buffer_len].
    - A pointer into the buffer ([partial], [end], [next], [p]) is its
      index, a [nat]; [buffer] itself is index 0.
    - [off_t] is a signed 64-bit integer and [int] a signed 32-bit one:
      both are [Z], wrapped where the code does arithmetic on them.
    - [rad_assert] stops the program when its condition is false.
    - A [goto] is a call to the function that embeds the label. *)

From Stdlib Require Import ZArith List Bool Lia Arith.
From Stdlib Require Import Strings.Byte.
From Stdlib Require Strings.String.
Import ListNotations.

Local Open Scope Z_scope.

(** ** Machine integers *)

Definition wrap_signed (bits : Z) (z : Z) : Z :=
  let m := 2 ^ bits in
  let r := z mod m in
  if r <? 2 ^ (bits - 1) then r else r - m.

(** [off_t] arithmetic. *)
Definition off (z : Z) : Z := wrap_signed 64 z.

(** [int] arithmetic. *)
Definition int32 (z : Z) : Z := wrap_signed 32 z.

(** ** Bytes and the caller's buffer *)

Definition LF : byte := x0a.
Definition TAB : byte := x09.

(** The string literals of the tag scan, without their final NUL. *)
Definition lit_Done : list byte := [x09; x44; x6f; x6e; x65].
Definition lit_Timestamp : list byte :=
  [x09; x54; x69; x6d; x65; x73; x74; x61; x6d; x70].
(** The four bytes [mod_write] writes. *)
Definition lit_Done4 : list byte := [x44; x6f; x6e; x65].

(** [p[0]] for the pointer [buffer + i]. *)
Definition byte_at (buffer : list byte) (i : nat) : byte := nth i buffer x00.

(** Store [src] at [buffer + at_]; bytes that would fall beyond the
    buffer are not modelled (the code never writes there). *)
Definition store (buffer : list byte) (at_ : nat) (src : list byte) : list byte :=
  firstn (length buffer)
         (firstn at_ buffer ++ src ++ skipn (at_ + length src) buffer).

(** [memmove(buffer, buffer + from, n)]. *)
Definition memmove_front (buffer : list byte) (from n : nat) : list byte :=
  store buffer 0 (firstn n (skipn from buffer)).

Fixpoint bytes_eqb (a b : list byte) : bool :=
  match a, b with
  | [], [] => true
  | x :: a', y :: b' => Byte.eqb x y && bytes_eqb a' b'
  | _, _ => false
  end.

(** [memcmp(buffer + p, lit, strlen(lit)) == 0]. *)
Definition memcmp0 (buffer : list byte) (p : nat) (lit : list byte) : bool :=
  bytes_eqb (firstn (length lit) (skipn p buffer)) lit.

(** ** The file provider: one open regular file behind a descriptor

    [lseek], [read], [write] and [close] are the C library's, with
    their POSIX meaning on a regular file: the file is a list of bytes
    with a cursor behind one descriptor, a call on a closed descriptor
    fails with -1, and every call is logged with the value it
    returned. *)

Module Posix.

Inductive whence := SEEK_SET | SEEK_CUR.

(** A system call as issued, with the value it returned. *)
Inductive syscall :=
| SysLseek (offset : Z) (w : whence) (res : Z)
| SysRead (count : nat) (res : Z)
| SysWrite (data : list byte) (res : Z)
| SysClose (res : Z).

Record file := mkFile {
  f_open : bool;            (* the descriptor is valid *)
  f_data : list byte;       (* the file's bytes *)
  f_pos : Z;                (* the descriptor's cursor *)
  f_trace : list syscall    (* the calls made so far, oldest first *)
}.

Definition log (f : file) (c : syscall) : file :=
  mkFile (f_open f) (f_data f) (f_pos f) (f_trace f ++ [c]).

Definition set_pos (f : file) (pos : Z) : file :=
  mkFile (f_open f) (f_data f) pos (f_trace f).

Definition set_data (f : file) (data : list byte) : file :=
  mkFile (f_open f) data (f_pos f) (f_trace f).

(** [lseek]: a bad descriptor or a negative target fails with -1 and
    leaves the cursor alone; a target beyond the end is allowed. *)
Definition lseek (f : file) (offset : Z) (w : whence) : file * Z :=
  let target := match w with
                | SEEK_SET => offset
                | SEEK_CUR => f_pos f + offset
                end in
  if f_open f && (0 <=? target)
  then (log (set_pos f target) (SysLseek offset w target), target)
  else (log f (SysLseek offset w (-1)), -1).

(** [read]: up to [count] bytes from the cursor; 0 at or beyond the end. *)
Definition read (f : file) (count : nat) : file * (Z * list byte) :=
  if f_open f
  then let got := firstn count (skipn (Z.to_nat (f_pos f)) (f_data f)) in
       let n := Z.of_nat (length got) in
       (log (set_pos f (f_pos f + n)) (SysRead count n), (n, got))
  else (log f (SysRead count (-1)), (-1, [])).

(** The file's bytes after writing [src] at position [at_]; a gap
    between the old end and [at_] reads as zero bytes. *)
Definition overwrite (data : list byte) (at_ : nat) (src : list byte) : list byte :=
  firstn at_ (data ++ repeat x00 (at_ - length data))
  ++ src ++ skipn (at_ + length src) data.

(** [write] at the cursor (the file is not opened with O_APPEND). *)
Definition write (f : file) (src : list byte) : file * Z :=
  if f_open f
  then let n := Z.of_nat (length src) in
       (log (set_pos (set_data f (overwrite (f_data f) (Z.to_nat (f_pos f)) src))
                     (f_pos f + n))
            (SysWrite src n), n)
  else (log f (SysWrite src (-1)), -1).

Definition close (f : file) : file * Z :=
  if f_open f
  then (log (mkFile false (f_data f) (f_pos f) (f_trace f)) (SysClose 0), 0)
  else (log f (SysClose (-1)), -1).

End Posix.

Import Posix.

(** ** The data model (lines 41-68) *)

(** [fr_detail_entry_t], the tracking entry of one record. *)
Record fr_detail_entry_t := mkEntry {
  timestamp : Z;       (* when we read the entry *)
  done_offset : Z      (* where we're tracking the status *)
}.

(** The one field of the parent [proto_detail_t] this file reads. *)
Record proto_detail_t := mkParent {
  max_packet_size : Z
}.

(** [proto_detail_file_t]; [fd] is the file behind the descriptor. *)
Record proto_detail_file_t := mkInst {
  parent : proto_detail_t;
  fd : file;
  eof : bool;             (* are we at EOF on reading? *)
  closing : bool;         (* we should be closing the file *)
  outstanding : Z;        (* number of outstanding records *)
  file_size : Z;          (* size of the file *)
  header_offset : Z;      (* offset of the current header we're reading *)
  read_offset : Z         (* where we're reading from *)
}.

Definition with_fd (i : proto_detail_file_t) (f : file) :=
  mkInst (parent i) f (eof i) (closing i) (outstanding i)
         (file_size i) (header_offset i) (read_offset i).
Definition with_eof (i : proto_detail_file_t) (b : bool) :=
  mkInst (parent i) (fd i) b (closing i) (outstanding i)
         (file_size i) (header_offset i) (read_offset i).
Definition with_closing (i : proto_detail_file_t) (b : bool) :=
  mkInst (parent i) (fd i) (eof i) b (outstanding i)
         (file_size i) (header_offset i) (read_offset i).
Definition with_outstanding (i : proto_detail_file_t) (n : Z) :=
  mkInst (parent i) (fd i) (eof i) (closing i) n
         (file_size i) (header_offset i) (read_offset i).
Definition with_header_offset (i : proto_detail_file_t) (o : Z) :=
  mkInst (parent i) (fd i) (eof i) (closing i) (outstanding i)
         (file_size i) o (read_offset i).
Definition with_read_offset (i : proto_detail_file_t) (o : Z) :=
  mkInst (parent i) (fd i) (eof i) (closing i) (outstanding i)
         (file_size i) (header_offset i) o.

(** [inst->read_offset = lseek(inst->fd, offset, whence)]. *)
Definition seek_read_offset (i : proto_detail_file_t) (offset : Z) (w : whence)
  : proto_detail_file_t :=
  let '(f, r) := lseek (fd i) offset w in
  with_read_offset (with_fd i f) r.

(** How a call ends: it returns, or a [rad_assert] stops it.  [NoFuel]
    is the embedding's own: the loops below are bounded by a counter,
    and [mod_read_returns] shows the bound is never reached. *)
Inductive outcome (A : Type) :=
| Returned (a : A)
| Aborted
| NoFuel.
Arguments Returned {A} a.
Arguments Aborted {A}.
Arguments NoFuel {A}.

(** What reading [table[i]] gives: the entry, or an access outside the
    array, whose value C leaves undefined. *)
Inductive table_read :=
| InTable (v : Z)
| OutsideTable (index : nat).

(** Everything [mod_read] hands back: its return value, the instance,
    the buffer, [*leftover], and [*packet_ctx] and [*priority] where
    the call assigned them ([None]: left as the caller had them). *)
Record read_result := mkRead {
  rr_ret : Z;
  rr_inst : proto_detail_file_t;
  rr_buffer : list byte;
  rr_leftover : nat;
  rr_packet_ctx : option fr_detail_entry_t;
  rr_priority : option table_read
}.

(** ** End-of-record scan (lines 183-191)

    [scan_eor buffer end_ p n] runs the [for] loop from the pointer [p]
    with [n = end - p] bytes to go; the result is [next]. *)
Fixpoint scan_eor (buffer : list byte) (end_ p n : nat) : option nat :=
  match n with
  | O => None
  | S n' =>
      if negb (Byte.eqb (byte_at buffer p) LF) then scan_eor buffer end_ (S p) n'
      else if (S p =? end_)%nat then None          (* no more data *)
      else if Byte.eqb (byte_at buffer (S p)) LF then Some (p + 2)%nat
      else scan_eor buffer end_ (S p) n'
  end.

Definition find_next (buffer : list byte) (partial end_ : nat) : option nat :=
  scan_eor buffer end_ partial (end_ - partial).

(** The end-of-record marker: a pair of adjacent newlines starts at
    index [i]. *)
Definition eor_at (buffer : list byte) (i : nat) : Prop :=
  byte_at buffer i = LF /\ byte_at buffer (S i) = LF.

(** ** Tag scan (lines 268-283) *)

Inductive tag_scan :=
| TagSkip                  (* goto skip_record *)
| TagEnd (done_off : Z)    (* loop ran to [end]; [track->done_offset] *)
| TagNoFuel.

Fixpoint scan_tags (fuel : nat) (buffer : list byte) (end_ : nat)
         (hdr : Z) (p : nat) (done_off : Z) : tag_scan :=
  if (end_ <=? p)%nat then TagEnd done_off
  else match fuel with
       | O => TagNoFuel
       | S fuel' =>
           if negb (Byte.eqb (byte_at buffer p) LF)
           then scan_tags fuel' buffer end_ hdr (S p) done_off
           else if (5 <=? end_ - p)%nat && memcmp0 buffer p lit_Done
           then TagSkip
           else if (10 <? end_ - p)%nat && memcmp0 buffer p lit_Timestamp
           then let p2 := (p + 2)%nat in
                scan_tags fuel' buffer end_ hdr (S p2) (off (hdr + Z.of_nat p2))
           else scan_tags fuel' buffer end_ hdr (S p) done_off
       end.

(** Put [v] at index [i] of an array initialiser; an index outside the
    array leaves it as it is. *)
Fixpoint designate (l : list Z) (i : nat) (v : Z) : list Z :=
  match l, i with
  | [], _ => []
  | _ :: l', O => v :: l'
  | x :: l', S i' => x :: designate l' i' v
  end.

(** The constants of radius.h and of the I/O layer, which this file
    uses and does not define. *)
Record radius_constants := mkConstants {
  FR_MAX_PACKET_CODE : nat;
  FR_CODE_ACCESS_REQUEST : nat;
  FR_CODE_ACCOUNTING_REQUEST : nat;
  FR_CODE_COA_REQUEST : nat;
  FR_CODE_DISCONNECT_REQUEST : nat;
  FR_CODE_STATUS_SERVER : nat;
  PRIORITY_NOW : Z;
  PRIORITY_HIGH : Z;
  PRIORITY_NORMAL : Z;
  PRIORITY_LOW : Z
}.

Section DetailFile.

Variable K : radius_constants.

(** [static uint32_t priorities[FR_MAX_PACKET_CODE]] (lines 96-102): a
    zero-filled array with the designated entries set, in source order. *)
Definition priorities : list Z :=
  fold_left (fun l iv => designate l (fst iv) (snd iv))
            [ (FR_CODE_ACCESS_REQUEST K, PRIORITY_HIGH K);
              (FR_CODE_ACCOUNTING_REQUEST K, PRIORITY_LOW K);
              (FR_CODE_COA_REQUEST K, PRIORITY_NORMAL K);
              (FR_CODE_DISCONNECT_REQUEST K, PRIORITY_NORMAL K);
              (FR_CODE_STATUS_SERVER K, PRIORITY_NOW K) ]
            (repeat 0 (FR_MAX_PACKET_CODE K)).

(** [priorities[i]]. *)
Definition priorities_at (i : nat) : table_read :=
  match nth_error priorities i with
  | Some v => InTable v
  | None => OutsideTable i
  end.

(** ** [mod_read] (lines 104-322) *)

(** The label [done] (lines 305-321). *)
Definition done_label (inst : proto_detail_file_t) (buffer : list byte)
           (leftover packet_len : nat)
           (ctx : option fr_detail_entry_t) (prio : option table_read)
  : outcome read_result :=
  let finish (inst : proto_detail_file_t) :=
    Returned (mkRead (Z.of_nat packet_len)
                     (with_outstanding inst (int32 (outstanding inst + 1)))
                     buffer leftover ctx prio) in
  if eof inst then
    let hack := off (read_offset inst - 1) in
    let inst := seek_read_offset inst hack SEEK_SET in
    if closing inst then Aborted                   (* rad_assert, line 313 *)
    else finish (with_closing inst (leftover =? 0)%nat)
  else finish inst.

(** Lines 256-292, then [done]: the record [buffer, buffer + packet_len)
    passed the tag scan with [done_off]. *)
Definition accept (now : Z) (inst : proto_detail_file_t) (buffer : list byte)
           (leftover packet_len : nat) (done_off : Z) : outcome read_result :=
  let track := mkEntry now done_off in
  let inst := with_header_offset inst
                (off (header_offset inst + Z.of_nat packet_len)) in
  done_label inst buffer leftover packet_len
             (Some track) (Some (priorities_at (Byte.to_nat (byte_at buffer 0)))).

(** Line 177: where the scan starts, one byte back when bytes were
    left over. *)
Definition scan_start (leftover partial : nat) : nat :=
  if (0 <? leftover)%nat then (partial - 1)%nat else partial.

(** The label [redo] (lines 166-292).  [skip_record] is the label of
    that name: with a [next] it compacts the buffer and goes back to
    [redo], without one it goes to [done]. *)
Fixpoint redo (fuel : nat) (now : Z) (inst : proto_detail_file_t)
         (buffer : list byte) (leftover partial end_ : nat)
  : outcome read_result :=
  match fuel with
  | O => NoFuel
  | S fuel' =>
      let partial := scan_start leftover partial in
      let next := find_next buffer partial end_ in
      match next, eof inst with
      | None, false =>
          Returned (mkRead 0 inst buffer end_ None None)
      | _, _ =>
          let packet_len := match next with Some n => n | None => end_ end in
          let leftover := match next with Some n => (end_ - n)%nat | None => O end in
          let skip_record (end_ : nat) :=
            match next with
            | Some n =>
                let data_size := (end_ - n)%nat in
                redo fuel' now inst (memmove_front buffer n data_size)
                     O O data_size
            | None =>
                if (leftover =? 0)%nat               (* rad_assert, line 252 *)
                then done_label inst buffer leftover packet_len None None
                else Aborted
            end in
          if max_packet_size (parent inst) <? Z.of_nat packet_len
          then skip_record end_
          else
            match scan_tags packet_len buffer packet_len (header_offset inst) O 0 with
            | TagSkip => skip_record packet_len
            | TagEnd done_off => accept now inst buffer leftover packet_len done_off
            | TagNoFuel => NoFuel
            end
      end
  end.

(** Lines 129-164: what the buffer holds when [redo] is first reached. *)
Inductive filled :=
| Filled (inst : proto_detail_file_t) (buffer : list byte) (end_ : nat)
| ReadFailed (inst : proto_detail_file_t)      (* data_size < 0 *)
| FillAborted.                                 (* rad_assert, line 162 *)

Definition fill (inst : proto_detail_file_t) (buffer : list byte) (leftover : nat)
  : filled :=
  let partial := leftover in
  if negb (eof inst) then
    let room := (length buffer - leftover)%nat in
    let '(f, (data_size, got)) := read (fd inst) room in
    let inst := with_fd inst f in
    if data_size <? 0 then ReadFailed inst
    else
      let buffer := store buffer partial got in
      let inst := seek_read_offset inst 0 SEEK_CUR in
      let inst := with_eof inst ((data_size =? 0)
                                 || (read_offset inst =? file_size inst)) in
      Filled inst buffer (partial + Z.to_nat data_size)
  else
    if (0 <? leftover)%nat then Filled inst buffer leftover
    else FillAborted.

Definition mod_read (now : Z) (inst : proto_detail_file_t)
           (buffer : list byte) (leftover : nat) : outcome read_result :=
  if negb (leftover <? length buffer)%nat then Aborted  (* rad_assert, line 113 *)
  else if closing inst then
    Returned (mkRead 0 (seek_read_offset inst (file_size inst) SEEK_SET)
                     buffer leftover None None)
  else
    match fill inst buffer leftover with
    | FillAborted => Aborted
    | ReadFailed inst => Returned (mkRead (-1) inst buffer leftover None None)
    | Filled inst buffer end_ =>
        redo (S end_) now inst buffer leftover leftover end_
    end.

End DetailFile.

(** ** [mod_write] (lines 324-358) *)

Record write_result := mkWrite {
  wr_ret : Z;
  wr_inst : proto_detail_file_t
}.

Definition mod_write (inst : proto_detail_file_t) (track : fr_detail_entry_t)
           (buffer : list byte) : outcome write_result :=
  let buffer_len := length buffer in
  if (buffer_len <? 1)%nat then Returned (mkWrite (-1) inst)
  else if negb (0 <? outstanding inst) then Aborted  (* rad_assert, line 332 *)
  else
    let inst := with_outstanding inst (int32 (outstanding inst - 1)) in
    let inst :=
      if Byte.eqb (byte_at buffer 0) x00 then inst       (* Do-Not-Respond *)
      else if 0 <? done_offset track then
        let '(f, _) := lseek (fd inst) (done_offset track) SEEK_SET in
        let '(f, _) := write f lit_Done4 in
        let '(f, _) := lseek f (read_offset inst) SEEK_SET in
        with_fd inst f
      else inst in
    Returned (mkWrite (Z.of_nat buffer_len) inst).

(** ** [mod_detach] (lines 450-462) *)
Definition mod_detach (inst : proto_detail_file_t) : proto_detail_file_t * Z :=
  let '(f, _) := close (fd inst) in
  (with_fd inst f, 0).

(** ** Runs of calls, to state the counter's invariant

    [drive] runs [mod_read] and [mod_write] in a given order on one
    instance and counts the tracking entries [mod_read] handed out (it
    assigned [*packet_ctx]) and those [mod_write] freed (it reached
    [talloc_free]). *)

Inductive call :=
| CallRead (now : Z) (buffer : list byte) (leftover : nat)
| CallWrite (track : fr_detail_entry_t) (buffer : list byte).

Record tally := mkTally {
  issued : Z;
  released : Z
}.

Fixpoint drive (K : radius_constants) (inst : proto_detail_file_t) (t : tally)
         (calls : list call) : outcome (proto_detail_file_t * tally) :=
  match calls with
  | [] => Returned (inst, t)
  | CallRead now buffer leftover :: rest =>
      match mod_read K now inst buffer leftover with
      | Returned r =>
          let t' := match rr_packet_ctx r with
                    | Some _ => mkTally (issued t + 1) (released t)
                    | None => t
                    end in
          drive K (rr_inst r) t' rest
      | Aborted => Aborted
      | NoFuel => NoFuel
      end
  | CallWrite track buffer :: rest =>
      match mod_write inst track buffer with
      | Returned w =>
          let t' := if 0 <=? wr_ret w
                    then mkTally (issued t) (released t + 1)
                    else t in
          drive K (wr_inst w) t' rest
      | Aborted => Aborted
      | NoFuel => NoFuel
      end
  end.

(** ** Concrete values for the examples *)

(** The constants as FreeRADIUS defines them: 52 packet codes, the
    RADIUS codes of RFC 2865, 2866 and 5176, and the four priorities. *)
Definition radius : radius_constants :=
  mkConstants 52 1 4 43 40 12 65536 32768 16384 8192.

(** A file just opened by [mod_open]: cursor at 0, nothing logged. *)
Definition opened (data : list byte) : file := mkFile true data 0 [].

(** The instance after [mod_open] on a file holding [data]. *)
Definition fresh (max_size : Z) (data : list byte) : proto_detail_file_t :=
  mkInst (mkParent max_size) (opened data) false false 0
         (Z.of_nat (length data)) 0 0.

(** A zero-filled buffer of [n] bytes. *)
Definition zeros (n : nat) : list byte := repeat x00 n.

(** "abcdefgh": 8 bytes, no terminator. *)
Definition rec_abcdefgh : list byte :=
  [x61; x62; x63; x64; x65; x66; x67; x68].
(** 1025 times "a", no terminator: one byte more than a maximum record
    size of 1024. *)
Definition rec_1025 : list byte := repeat x61 1025.
(** 1025 times "a", then "\n\nxy\n\n": a record of 1027 bytes, then
    one of 4. *)
Definition two_records : list byte := rec_1025 ++ [LF; LF; x78; x79; LF; LF].
(** "X\n\tDone = 1\n\n": a record already marked done. *)
Definition rec_done : list byte :=
  [x58; LF; TAB; x44; x6f; x6e; x65; x20; x3d; x20; x31; LF; LF].
(** "X\n\tTimestamp = 1\n\n": the tag lies at offsets 2 to 11. *)
Definition rec_timestamp : list byte :=
  [x58; LF; TAB; x54; x69; x6d; x65; x73; x74; x61; x6d; x70;
   x20; x3d; x20; x31; LF; LF].
(** "ab\n\ncd\n\n": two records of 4 bytes. *)
Definition ab_cd : list byte := [x61; x62; LF; LF; x63; x64; LF; LF].
(** "ab\n\n": the first of them. *)
Definition ab_record : list byte := [x61; x62; LF; LF].
(** "\377\n\n": a record whose leading byte is 255. *)
Definition rec_ff : list byte := [xff; LF; LF].

(** The instance once [rec_timestamp] has been read and handed out:
    at eof, rewound to offset 17, one record outstanding. *)
Definition after_read : proto_detail_file_t :=
  mkInst (mkParent 1024) (mkFile true rec_timestamp 17 []) true true 1 18 18 17.
(** The same after [mod_detach] has closed the descriptor. *)
Definition detached : proto_detail_file_t := fst (mod_detach after_read).
(** A tracking entry pointing at the "Time" of "\tTimestamp". *)
Definition entry_at_3 : fr_detail_entry_t := mkEntry 7 3.
(** "X\n\tDonestamp = 1\n\n". *)
Definition rec_marked : list byte :=
  [x58; LF; TAB; x44; x6f; x6e; x65; x73; x74; x61; x6d; x70;
   x20; x3d; x20; x31; LF; LF].

(** ** [mod_open] (lines 367-391)

    What [open] and [fstat] find at a path: nothing, or a regular file
    with its bytes, which [fstat] may or may not be able to examine. *)
Record dir_entry := mkDirEntry {
  e_data : list byte;
  e_stat_ok : bool
}.

Definition filesystem := String.string -> option dir_entry.

(** [open(path, O_RDWR)]: a descriptor on the file with the cursor at
    0 and an empty log of calls, or -1, a descriptor on which every call
    fails. *)
Definition open_rdwr (entry : option dir_entry) : file :=
  match entry with
  | Some e => mkFile true (e_data e) 0 []
  | None => mkFile false [] 0 []
  end.

(** [fstat(fd, &buf)]: [buf.st_size] when it succeeds. *)
Definition fstat (entry : option dir_entry) : option Z :=
  match entry with
  | Some e => if e_stat_ok e then Some (Z.of_nat (length (e_data e))) else None
  | None => None
  end.

(** [talloc_asprintf(inst, "detail working file %s", filename_work)]. *)
Module DebugName.
Import Stdlib.Strings.String.
Local Open Scope string_scope.
Definition debug_name (filename_work : string) : string :=
  "detail working file " ++ filename_work.
End DebugName.

(** The two strings of [proto_detail_file_t] that [mod_open] uses. *)
Record detail_names := mkNames {
  filename_work : String.string;     (* work file name *)
  name : option String.string        (* debug name for printing *)
}.

Definition with_file_size (i : proto_detail_file_t) (n : Z) :=
  mkInst (parent i) (fd i) (eof i) (closing i) (outstanding i)
         n (header_offset i) (read_offset i).

Record open_result := mkOpen {
  or_ret : Z;
  or_inst : proto_detail_file_t;
  or_names : detail_names
}.

Definition mod_open (fs : filesystem) (inst : proto_detail_file_t)
           (names : detail_names) : outcome open_result :=
  let entry := fs (filename_work names) in
  let inst := with_fd inst (open_rdwr entry) in
  if negb (f_open (fd inst)) then Returned (mkOpen (-1) inst names)
  else
    match fstat entry with
    | None => Returned (mkOpen (-1) inst names)
    | Some st_size =>
        match name names with
        | Some _ => Aborted                           (* rad_assert, line 383 *)
        | None =>
            let debug := DebugName.debug_name (filename_work names) in
            Returned (mkOpen 0 (with_file_size inst st_size)
                             (mkNames (filename_work names) (Some debug)))
        end
    end.

(** ** [mod_decode] (lines 79-91): the two ids it stamps on the request *)
Record request_ids := mkIds {
  packet_id : Z;
  reply_id : Z
}.

Definition mod_decode (inst : proto_detail_file_t) : Z * request_ids :=
  (0, mkIds (outstanding inst) (outstanding inst)).

(** ** [mod_fd] (lines 398-403) *)
Definition mod_fd (inst : proto_detail_file_t) : file := fd inst.

(** The instance as it is allocated, all zero, with its parent set by
    [mod_bootstrap]; the descriptor 0 is not one this file opened. *)
Definition zeroed (max_size : Z) : proto_detail_file_t :=
  mkInst (mkParent max_size) (mkFile false [] 0 []) false false 0 0 0 0.

(** A directory holding the one file [path]. *)
Definition one_file (path : String.string) (e : dir_entry) : filesystem :=
  fun p => if String.eqb p path then Some e else None.

(** ** Concrete values for the further examples *)

(** "abcdefgh\n\nxy\n\n": a record of 10 bytes, then one of 4. *)
Definition small_two_records : list byte :=
  rec_abcdefgh ++ [LF; LF; x78; x79; LF; LF].

(** A stream on "ab\n\ncd\n\n" that has read the first three bytes,
    and the buffer holding them as leftover. *)
Definition three_read : proto_detail_file_t :=
  mkInst (mkParent 1024) (mkFile true ab_cd 3 []) false false 0 8 0 3.
Definition buffer_ab_nl : list byte := [x61; x62; LF; x00; x00; x00; x00; x00].

(** A stream on "ab\n\ncd\n\n" at eof after its first record was handed
    out, and the buffer holding "cd\n\n" as leftover at its front. *)
Definition at_eof : proto_detail_file_t :=
  mkInst (mkParent 1024) (mkFile true ab_cd 7 []) true false 1 8 4 7.
Definition buffer_cd : list byte := [x63; x64; LF; LF; x00; x00; x00; x00].

(** A directory with the one work file "detail.work" holding
    "ab\n\ncd\n\n", and the names of an instance configured for it. *)
Module WorkFile.
Import Stdlib.Strings.String.
Local Open Scope string_scope.
Definition path : string := "detail.work".
End WorkFile.

Definition work_dir : filesystem :=
  one_file WorkFile.path (mkDirEntry ab_cd true).
Definition work_names : detail_names := mkNames WorkFile.path None.

(** * Properties *)

(** ** Bytes *)

Lemma byte_eqb_true (a b : byte) : Byte.eqb a b = true <-> a = b.
Proof.
  split; [apply Byte.byte_dec_bl | apply Byte.byte_dec_lb].
Qed.

Lemma byte_eqb_false (a b : byte) : Byte.eqb a b = false <-> a <> b.
Proof.
  rewrite <- byte_eqb_true. destruct (Byte.eqb a b); intuition congruence.
Qed.

Lemma byte_at_skipn (l : list byte) :
  forall p b rest, skipn p l = b :: rest -> byte_at l p = b.
Proof.
  unfold byte_at. induction l as [|x l IH]; intros [|p] b rest E; simpl in *;
    try discriminate.
  - now inversion E.
  - eapply IH; eauto.
Qed.

(** ** The tag scan compares at the newline

    [memcmp] is given [p], and [p[0]] is the newline the loop has just
    tested for, while both literals start with a tab: neither
    comparison can succeed. *)

Lemma memcmp0_at_newline (buffer : list byte) (p : nat) (rest : list byte) :
  Byte.eqb (byte_at buffer p) LF = true ->
  memcmp0 buffer p (TAB :: rest) = false.
Proof.
  intros H. apply byte_eqb_true in H. unfold memcmp0.
  destruct (skipn p buffer) as [|b l] eqn:E; simpl; [reflexivity|].
  apply byte_at_skipn in E. rewrite E in H. subst b. reflexivity.
Qed.

Lemma scan_tags_inert (buffer : list byte) (end_ : nat) (hdr : Z) :
  forall fuel p d,
    (end_ - p <= fuel)%nat ->
    scan_tags fuel buffer end_ hdr p d = TagEnd d.
Proof.
  induction fuel as [|fuel IH]; intros p d Hf.
  - simpl. destruct (end_ <=? p)%nat eqn:E; [reflexivity|].
    apply Nat.leb_gt in E. lia.
  - simpl. destruct (end_ <=? p)%nat eqn:E; [reflexivity|].
    apply Nat.leb_gt in E.
    destruct (Byte.eqb (byte_at buffer p) LF) eqn:Hb; simpl.
    + change lit_Done with (TAB :: [x44; x6f; x6e; x65]).
      change lit_Timestamp
        with (TAB :: [x54; x69; x6d; x65; x73; x74; x61; x6d; x70]).
      rewrite !memcmp0_at_newline by assumption.
      rewrite !andb_false_r. apply IH. lia.
    + apply IH. lia.
Qed.

(** ** The end-of-record scan *)

Lemma scan_eor_found (buffer : list byte) (end_ : nat) :
  forall n p k,
    (p + n = end_)%nat ->
    scan_eor buffer end_ p n = Some k ->
    exists i, k = (i + 2)%nat /\ (p <= i)%nat /\ (i + 2 <= end_)%nat /\
              eor_at buffer i /\
              forall j, (p <= j < i)%nat -> ~ eor_at buffer j.
Proof.
  induction n as [|n IH]; intros p k Hpn H; cbn [scan_eor] in H; [discriminate|].
  destruct (Byte.eqb (byte_at buffer p) LF) eqn:Hp; cbn [negb] in H.
  - destruct (S p =? end_)%nat eqn:He; [discriminate|].
    apply Nat.eqb_neq in He.
    destruct (Byte.eqb (byte_at buffer (S p)) LF) eqn:Hq.
    + inversion H; subst k. exists p.
      apply byte_eqb_true in Hp, Hq.
      repeat split; try lia; assumption.
    + destruct (IH (S p) k ltac:(lia) H) as (i & -> & Hi & Hie & Hat & Hmin).
      exists i. repeat split; try lia; try apply Hat.
      intros j Hj [Hj1 Hj2].
      destruct (Nat.eq_dec j p) as [->|Hne].
      * apply byte_eqb_false in Hq. contradiction.
      * apply (Hmin j); [lia | split; assumption].
  - destruct (IH (S p) k ltac:(lia) H) as (i & -> & Hi & Hie & Hat & Hmin).
    exists i. repeat split; try lia; try apply Hat.
    intros j Hj [Hj1 Hj2].
    destruct (Nat.eq_dec j p) as [->|Hne].
    + apply byte_eqb_false in Hp. contradiction.
    + apply (Hmin j); [lia | split; assumption].
Qed.

Lemma scan_eor_none (buffer : list byte) (end_ : nat) :
  forall n p,
    (p + n = end_)%nat ->
    scan_eor buffer end_ p n = None ->
    forall j, (p <= j)%nat -> (S j < end_)%nat -> ~ eor_at buffer j.
Proof.
  induction n as [|n IH]; intros p Hpn H j Hj Hje; [lia|].
  cbn [scan_eor] in H. intros [Hj1 Hj2].
  destruct (Byte.eqb (byte_at buffer p) LF) eqn:Hp; cbn [negb] in H.
  - destruct (S p =? end_)%nat eqn:He.
    + apply Nat.eqb_eq in He. lia.
    + destruct (Byte.eqb (byte_at buffer (S p)) LF) eqn:Hq; [discriminate|].
      destruct (Nat.eq_dec j p) as [->|Hne].
      * apply byte_eqb_false in Hq. contradiction.
      * apply (IH (S p) ltac:(lia) H j); [lia | lia | split; assumption].
  - destruct (Nat.eq_dec j p) as [->|Hne].
    + apply byte_eqb_false in Hp. contradiction.
    + apply (IH (S p) ltac:(lia) H j); [lia | lia | split; assumption].
Qed.

Lemma find_next_found (buffer : list byte) (partial end_ k : nat) :
  find_next buffer partial end_ = Some k ->
  exists i, k = (i + 2)%nat /\ (partial <= i)%nat /\ (i + 2 <= end_)%nat /\
            eor_at buffer i /\
            forall j, (partial <= j < i)%nat -> ~ eor_at buffer j.
Proof.
  unfold find_next. intros H.
  destruct (le_lt_dec partial end_) as [Hle|Hgt].
  - eapply scan_eor_found; [|exact H]. lia.
  - replace (end_ - partial)%nat with O in H by lia. discriminate.
Qed.

Lemma find_next_none (buffer : list byte) (partial end_ : nat) :
  find_next buffer partial end_ = None ->
  forall j, (partial <= j)%nat -> (S j < end_)%nat -> ~ eor_at buffer j.
Proof.
  unfold find_next. intros H j Hj Hje.
  eapply scan_eor_none; [|exact H|exact Hj|exact Hje]. lia.
Qed.

Lemma find_next_none_intro (buffer : list byte) (partial end_ : nat) :
  (forall j, (partial <= j)%nat -> (S j < end_)%nat -> ~ eor_at buffer j) ->
  find_next buffer partial end_ = None.
Proof.
  intros H. destruct (find_next buffer partial end_) as [k|] eqn:E; [|reflexivity].
  apply find_next_found in E. destruct E as (i & -> & Hi & Hie & Hat & _).
  exfalso. apply (H i); [lia | lia | exact Hat].
Qed.

Lemma find_next_found_intro (buffer : list byte) (partial end_ i : nat) :
  (partial <= i)%nat -> (i + 2 <= end_)%nat -> eor_at buffer i ->
  (forall j, (partial <= j < i)%nat -> ~ eor_at buffer j) ->
  find_next buffer partial end_ = Some (i + 2)%nat.
Proof.
  intros Hi Hie Hat Hmin.
  destruct (find_next buffer partial end_) as [k|] eqn:E.
  - apply find_next_found in E. destruct E as (i' & -> & Hi' & Hie' & Hat' & Hmin').
    destruct (lt_eq_lt_dec i i') as [[Hlt|Heq]|Hgt].
    + exfalso. apply (Hmin' i); [lia | exact Hat].
    + now subst.
    + exfalso. apply (Hmin i'); [lia | exact Hat'].
  - exfalso. eapply find_next_none; [exact E | | | exact Hat]; lia.
Qed.

(** ** The read loop *)

Lemma done_label_fields (inst : proto_detail_file_t) (buffer : list byte)
      (leftover packet_len : nat) (ctx : option fr_detail_entry_t)
      (prio : option table_read) (r : read_result) :
  done_label inst buffer leftover packet_len ctx prio = Returned r ->
  rr_ret r = Z.of_nat packet_len /\ rr_buffer r = buffer /\
  rr_leftover r = leftover /\ rr_packet_ctx r = ctx /\ rr_priority r = prio.
Proof.
  unfold done_label. intros H.
  destruct (eof inst);
    [destruct (closing (seek_read_offset inst _ SEEK_SET)); [discriminate|]|];
    inversion H; subst r; cbn; auto.
Qed.

Lemma done_label_not_NoFuel (inst : proto_detail_file_t) (buffer : list byte)
      (leftover packet_len : nat) (ctx : option fr_detail_entry_t)
      (prio : option table_read) :
  done_label inst buffer leftover packet_len ctx prio <> NoFuel.
Proof.
  unfold done_label.
  destruct (eof inst);
    [destruct (closing (seek_read_offset inst _ SEEK_SET))|]; discriminate.
Qed.

Section ReadLoop.

Variable K : radius_constants.

(** One turn of [redo], with the tag scan resolved by [scan_tags_inert]. *)
Lemma redo_step (fuel : nat) (now : Z) (inst : proto_detail_file_t)
      (buffer : list byte) (leftover partial end_ : nat) :
  redo K (S fuel) now inst buffer leftover partial end_ =
  match find_next buffer (scan_start leftover partial) end_ with
  | Some n =>
      if max_packet_size (parent inst) <? Z.of_nat n
      then redo K fuel now inst (memmove_front buffer n (end_ - n)) O O
                (end_ - n)%nat
      else accept K now inst buffer (end_ - n)%nat n 0
  | None =>
      if eof inst
      then if max_packet_size (parent inst) <? Z.of_nat end_
           then done_label inst buffer O end_ None None
           else accept K now inst buffer O end_ 0
      else Returned (mkRead 0 inst buffer end_ None None)
  end.
Proof.
  cbn [redo]. cbv zeta.
  destruct (find_next buffer _ end_) as [n|]; destruct (eof inst);
    rewrite ?scan_tags_inert by lia; reflexivity.
Qed.

Lemma redo_not_NoFuel (now : Z) (inst : proto_detail_file_t) :
  forall fuel buffer leftover partial end_,
    (end_ < fuel)%nat ->
    redo K fuel now inst buffer leftover partial end_ <> NoFuel.
Proof.
  induction fuel as [|fuel IH]; intros buffer leftover partial end_ Hf; [lia|].
  rewrite redo_step.
  destruct (find_next buffer _ end_) as [n|] eqn:E.
  - apply find_next_found in E. destruct E as (i & -> & _ & Hie & _).
    destruct (_ <? _).
    + apply IH. lia.
    + apply done_label_not_NoFuel.
  - destruct (eof inst); [|discriminate].
    destruct (_ <? _); apply done_label_not_NoFuel.
Qed.

(** Whenever [redo] hands out a tracking entry, it is by accepting some
    record within the maximum size at the front of some buffer, with
    [done_offset] 0. *)
Lemma redo_accepts (now : Z) (inst : proto_detail_file_t) (r : read_result)
      (t : fr_detail_entry_t) :
  forall fuel buffer leftover partial end_,
    redo K fuel now inst buffer leftover partial end_ = Returned r ->
    rr_packet_ctx r = Some t ->
    exists buffer' leftover' packet_len,
      Z.of_nat packet_len <= max_packet_size (parent inst) /\
      accept K now inst buffer' leftover' packet_len 0 = Returned r.
Proof.
  induction fuel as [|fuel IH]; intros buffer leftover partial end_ H Ht;
    [discriminate|].
  rewrite redo_step in H.
  destruct (find_next buffer _ end_) as [n|].
  - destruct (_ <? _) eqn:E; [eapply IH; eauto|].
    apply Z.ltb_ge in E. eauto.
  - destruct (eof inst).
    + destruct (_ <? _) eqn:E; [|apply Z.ltb_ge in E; eauto].
      apply done_label_fields in H. destruct H as (_ & _ & _ & Hc & _).
      congruence.
    + inversion H; subst r. discriminate.
Qed.

(** An oversize record that has a [next] is dropped: the bytes after it
    move to the front and the scan starts again on them. *)
Lemma redo_drops_oversize_with_next (fuel : nat) (now : Z)
      (inst : proto_detail_file_t) (buffer : list byte)
      (leftover partial end_ n : nat) :
  find_next buffer (scan_start leftover partial) end_ = Some n ->
  max_packet_size (parent inst) < Z.of_nat n ->
  redo K (S fuel) now inst buffer leftover partial end_
  = redo K fuel now inst (memmove_front buffer n (end_ - n)) O O (end_ - n)%nat.
Proof.
  intros Hn Hmax. rewrite redo_step, Hn.
  destruct (_ <? _) eqn:E; [reflexivity | apply Z.ltb_ge in E; lia].
Qed.

(** An oversize record with no [next] (the last of the file, at eof)
    goes from [skip_record] to [done]: its length is returned and
    counted, with no tracking entry and [header_offset] unchanged. *)
Lemma redo_returns_oversize_without_next (fuel : nat) (now : Z)
      (inst : proto_detail_file_t) (buffer : list byte)
      (leftover partial end_ : nat) :
  eof inst = true ->
  closing inst = false ->
  find_next buffer (scan_start leftover partial) end_ = None ->
  max_packet_size (parent inst) < Z.of_nat end_ ->
  exists r,
    redo K (S fuel) now inst buffer leftover partial end_ = Returned r /\
    rr_ret r = Z.of_nat end_ /\ rr_packet_ctx r = None /\
    outstanding (rr_inst r) = int32 (outstanding inst + 1) /\
    header_offset (rr_inst r) = header_offset inst.
Proof.
  intros He Hc Hn Hmax. rewrite redo_step, Hn, He.
  destruct (_ <? _) eqn:E; [|apply Z.ltb_ge in E; lia].
  unfold done_label. rewrite He.
  unfold seek_read_offset.
  destruct (lseek (fd inst) _ SEEK_SET) as [f' ro']. cbn. rewrite Hc.
  eexists. split; [reflexivity|]. cbn. auto.
Qed.

(** [mod_read] always comes to an end: it returns or an assertion
    stops it. *)
Lemma mod_read_returns (now : Z) (inst : proto_detail_file_t)
      (buffer : list byte) (leftover : nat) :
  mod_read K now inst buffer leftover <> NoFuel.
Proof.
  unfold mod_read.
  destruct (negb _); [discriminate|].
  destruct (closing inst); [discriminate|].
  destruct (fill inst buffer leftover); try discriminate.
  apply redo_not_NoFuel. lia.
Qed.

(** A tracking entry handed out by [mod_read] comes from [accept],
    applied to the instance as [fill] left it. *)
Lemma mod_read_accepts (now : Z) (inst : proto_detail_file_t)
      (buffer : list byte) (leftover : nat) (r : read_result)
      (t : fr_detail_entry_t) :
  mod_read K now inst buffer leftover = Returned r ->
  rr_packet_ctx r = Some t ->
  closing inst = false /\
  exists inst1 buffer1 end1,
    fill inst buffer leftover = Filled inst1 buffer1 end1 /\
    exists buffer' leftover' packet_len,
      Z.of_nat packet_len <= max_packet_size (parent inst1) /\
      accept K now inst1 buffer' leftover' packet_len 0 = Returned r.
Proof.
  unfold mod_read. intros H Ht.
  destruct (negb _); [discriminate|].
  destruct (closing inst); [inversion H; subst r; discriminate|].
  split; [reflexivity|].
  destruct (fill inst buffer leftover) as [inst1 buffer1 end1|inst1|];
    [ | inversion H; subst r; discriminate | discriminate].
  exists inst1, buffer1, end1. split; [reflexivity|].
  eapply redo_accepts; eauto.
Qed.

(** X6.  A record handed out with a tracking entry is never longer than
    the maximum record size. *)
Lemma mod_read_entry_within_maximum (now : Z) (inst : proto_detail_file_t)
      (buffer : list byte) (leftover : nat) (r : read_result)
      (t : fr_detail_entry_t) :
  mod_read K now inst buffer leftover = Returned r ->
  rr_packet_ctx r = Some t ->
  rr_ret r <= max_packet_size (parent (rr_inst r)).
Proof.
  intros H Ht.
  destruct (mod_read_accepts now inst buffer leftover r t H Ht)
    as (_ & inst1 & buffer1 & end1 & _ & buffer' & leftover' & packet_len
        & Hmax & Ha).
  unfold accept, done_label in Ha. cbn [eof with_header_offset] in Ha.
  unfold seek_read_offset in Ha.
  destruct (lseek _ _ SEEK_SET) as [f' ro'].
  destruct (eof inst1); [cbn in Ha; destruct (closing inst1); [discriminate|]|];
    inversion Ha; subst r; cbn; exact Hmax.
Qed.

End ReadLoop.

(** ** The counter *)

Lemma int32_small (z : Z) : 0 <= z < 2 ^ 31 -> int32 z = z.
Proof.
  intros H. unfold int32, wrap_signed.
  change (2 ^ (32 - 1)) with (2 ^ 31).
  assert (H32 : 2 ^ 32 = 2 * 2 ^ 31) by reflexivity.
  rewrite Z.mod_small by lia.
  destruct (z <? 2 ^ 31) eqn:E; [reflexivity|].
  apply Z.ltb_ge in E. lia.
Qed.

Lemma done_label_outstanding (inst : proto_detail_file_t) (buffer : list byte)
      (leftover packet_len : nat) (ctx : option fr_detail_entry_t)
      (prio : option table_read) (r : read_result) :
  done_label inst buffer leftover packet_len ctx prio = Returned r ->
  outstanding (rr_inst r) = int32 (outstanding inst + 1).
Proof.
  unfold done_label, seek_read_offset. intros H.
  destruct (lseek (fd inst) _ SEEK_SET) as [f' ro'].
  destruct (eof inst); [cbn in H; destruct (closing inst); [discriminate|]|];
    inversion H; subst r; reflexivity.
Qed.

Section Counter.

Variable K : radius_constants.

(** [mod_read] leaves the counter alone or adds one to it. *)
Lemma redo_outstanding (now : Z) (inst : proto_detail_file_t) (r : read_result) :
  forall fuel buffer leftover partial end_,
    redo K fuel now inst buffer leftover partial end_ = Returned r ->
    outstanding (rr_inst r) = outstanding inst \/
    outstanding (rr_inst r) = int32 (outstanding inst + 1).
Proof.
  induction fuel as [|fuel IH]; intros buffer leftover partial end_ H;
    [discriminate|].
  rewrite redo_step in H.
  destruct (find_next buffer _ end_) as [n|].
  - destruct (_ <? _); [eapply IH; eauto|].
    right. apply done_label_outstanding in H. exact H.
  - destruct (eof inst).
    + right. destruct (_ <? _); apply done_label_outstanding in H; exact H.
    + left. inversion H; subst r. reflexivity.
Qed.

Lemma fill_outstanding (inst inst1 : proto_detail_file_t)
      (buffer buffer1 : list byte) (leftover end1 : nat) :
  fill inst buffer leftover = Filled inst1 buffer1 end1 ->
  outstanding inst1 = outstanding inst.
Proof.
  unfold fill, seek_read_offset. intros H.
  destruct (eof inst); cbn [negb] in H.
  - destruct (0 <? leftover)%nat; [|discriminate].
    inversion H; subst. reflexivity.
  - destruct (read (fd inst) _) as [f [data_size got]].
    destruct (data_size <? 0); [discriminate|].
    destruct (lseek _ 0 SEEK_CUR) as [f' ro'].
    inversion H; subst. reflexivity.
Qed.

Lemma mod_read_outstanding (now : Z) (inst : proto_detail_file_t)
      (buffer : list byte) (leftover : nat) (r : read_result) :
  mod_read K now inst buffer leftover = Returned r ->
  outstanding (rr_inst r) = outstanding inst \/
  outstanding (rr_inst r) = int32 (outstanding inst + 1).
Proof.
  unfold mod_read. intros H.
  destruct (negb _); [discriminate|].
  destruct (closing inst).
  - left. inversion H; subst r. cbn [rr_inst]. unfold seek_read_offset.
    destruct (lseek _ _ SEEK_SET). reflexivity.
  - destruct (fill inst buffer leftover) as [inst1 buffer1 end1|inst1|] eqn:Ef;
      [ | | discriminate].
    + rewrite <- (fill_outstanding _ _ _ _ _ _ Ef).
      eapply redo_outstanding; eauto.
    + left. inversion H; subst r. cbn [rr_inst].
      unfold fill in Ef. destruct (eof inst); cbn [negb] in Ef.
      * destruct (0 <? leftover)%nat; discriminate.
      * destruct (read (fd inst) _) as [f [data_size got]].
        destruct (data_size <? 0); [|discriminate].
        inversion Ef; subst. reflexivity.
Qed.

(** [mod_write] takes one from a positive counter, or refuses an empty
    buffer and changes nothing. *)
Lemma mod_write_outstanding (inst : proto_detail_file_t)
      (track : fr_detail_entry_t) (buffer : list byte) (w : write_result) :
  mod_write inst track buffer = Returned w ->
  (wr_ret w = -1 /\ wr_inst w = inst) \/
  (0 < outstanding inst /\
   outstanding (wr_inst w) = int32 (outstanding inst - 1)).
Proof.
  unfold mod_write. intros H.
  destruct (length buffer <? 1)%nat.
  - left. inversion H; subst w. auto.
  - destruct (0 <? outstanding inst) eqn:Eo; cbn [negb] in H; [|discriminate].
    apply Z.ltb_lt in Eo. right. split; [exact Eo|].
    inversion H; subst w; clear H. cbn [wr_inst].
    destruct (Byte.eqb _ _); [reflexivity|].
    destruct (0 <? done_offset track); [|reflexivity].
    cbn [fd with_outstanding read_offset].
    destruct (lseek (fd inst) _ SEEK_SET) as [f1 r1].
    destruct (write f1 lit_Done4) as [f2 r2].
    destruct (lseek f2 _ SEEK_SET) as [f3 r3]. reflexivity.
Qed.

(** X14.  In any run of calls that stays within the range of [int],
    the counter never goes below zero, and it grows by at most one per
    call. *)
Lemma outstanding_never_negative :
  forall calls inst t inst' t',
    0 <= outstanding inst ->
    outstanding inst + Z.of_nat (length calls) < 2 ^ 31 ->
    drive K inst t calls = Returned (inst', t') ->
    0 <= outstanding inst' <= outstanding inst + Z.of_nat (length calls).
Proof.
  induction calls as [|c calls IH]; intros inst t inst' t' H0 Hb H.
  - inversion H; subst. cbn. lia.
  - cbn [length] in Hb |- *. rewrite Nat2Z.inj_succ in Hb |- *.
    destruct c as [now buffer leftover|track buffer]; cbn [drive] in H.
    + destruct (mod_read K now inst buffer leftover) as [r| |] eqn:E;
        try discriminate.
      apply mod_read_outstanding in E.
      assert (Hr : outstanding inst <= outstanding (rr_inst r)
                   <= outstanding inst + 1).
      { destruct E as [E|E]; [|rewrite int32_small in E by lia]; lia. }
      apply IH in H; lia.
    + destruct (mod_write inst track buffer) as [w| |] eqn:E;
        try discriminate.
      apply mod_write_outstanding in E.
      assert (Hw : 0 <= outstanding (wr_inst w) <= outstanding inst).
      { destruct E as [[_ E]|[Hp E]];
          [rewrite E | rewrite int32_small in E by lia]; lia. }
      apply IH in H; lia.
Qed.

End Counter.

(** * The claims *)

(** C1 (the code departs from it).  An oversize record is to be dropped
    without being surfaced, with [header_offset] advanced past it.
    With a maximum of 1024, on a file of 1025 bytes "a" the lone
    oversize record reaches [skip_record] with no [next], goes to
    [done], and [mod_read] returns its length 1025, with no tracking
    entry, and counts it as outstanding
    ([redo_returns_oversize_without_next]).  On the same bytes followed
    by "\n\nxy\n\n" the oversize record is dropped and "xy\n\n" is
    returned, but [header_offset] ends at 4, the length of the second
    record alone, while that record ends at file offset 1031. *)
Theorem oversize_record_reaches_the_caller :
  (exists r,
      mod_read radius 7 (fresh 1024 rec_1025) (zeros 4096) 0 = Returned r /\
      rr_ret r = 1025 /\ firstn 1025 (rr_buffer r) = rec_1025 /\
      rr_packet_ctx r = None /\ outstanding (rr_inst r) = 1 /\
      header_offset (rr_inst r) = 0) /\
  (exists r,
      mod_read radius 7 (fresh 1024 two_records) (zeros 4096) 0 = Returned r /\
      rr_ret r = 4 /\ firstn 4 (rr_buffer r) = [x78; x79; LF; LF] /\
      header_offset (rr_inst r) = 4 /\ Z.of_nat (length two_records) = 1031).
Proof.
  split; eexists; (split; [vm_compute; reflexivity|]);
    repeat split; vm_compute; reflexivity.
Qed.

(** C2 (the code departs from it).  A record holding a "\tDone" tag
    after a newline is to be skipped.  The scan gives [memcmp] the
    pointer to the newline itself, so the tag is never recognised
    ([scan_tags_inert]): the record "X\n\tDone = 1\n\n" is returned to
    the caller with a tracking entry. *)
Theorem done_record_reaches_the_caller :
  byte_at rec_done 1 = LF /\ memcmp0 rec_done 2 lit_Done = true /\
  exists r t,
    mod_read radius 7 (fresh 1024 rec_done) (zeros 32) 0 = Returned r /\
    rr_ret r = 13 /\ firstn 13 (rr_buffer r) = rec_done /\
    rr_packet_ctx r = Some t /\ outstanding (rr_inst r) = 1.
Proof.
  split; [reflexivity|]. split; [reflexivity|].
  eexists. eexists. split; [vm_compute; reflexivity|]. cbn. repeat split.
Qed.

(** C3 (the code departs from it).  The tracking entry is to carry the
    file offset just past the "\tTimestamp" tag.  For the reason given
    at C2 the tag is never recognised: every tracking entry [mod_read]
    hands out has [done_offset] 0, whatever the record holds. *)
Theorem done_offset_is_always_zero (K : radius_constants) (now : Z)
        (inst : proto_detail_file_t) (buffer : list byte) (leftover : nat)
        (r : read_result) (t : fr_detail_entry_t) :
  mod_read K now inst buffer leftover = Returned r ->
  rr_packet_ctx r = Some t ->
  done_offset t = 0.
Proof.
  intros H Ht.
  destruct (mod_read_accepts K now inst buffer leftover r t H Ht)
    as (_ & inst1 & buffer1 & end1 & _ & buffer' & leftover' & packet_len
        & _ & Ha).
  unfold accept in Ha. apply done_label_fields in Ha.
  destruct Ha as (_ & _ & _ & Hc & _).
  rewrite Ht in Hc. inversion Hc. reflexivity.
Qed.

(** C3 at the record "X\n\tTimestamp = 1\n\n": the tag lies at offsets
    2 to 11, and the entry's [done_offset] is 0. *)
Lemma done_offset_zero_despite_timestamp :
  byte_at rec_timestamp 1 = LF /\
  memcmp0 rec_timestamp 2 lit_Timestamp = true /\
  exists r t,
    mod_read radius 7 (fresh 1024 rec_timestamp) (zeros 32) 0 = Returned r /\
    rr_ret r = 18 /\ rr_packet_ctx r = Some t /\ done_offset t = 0.
Proof.
  split; [reflexivity|]. split; [reflexivity|].
  eexists. eexists. split; [vm_compute; reflexivity|].
  split; [reflexivity|]. split; [reflexivity|].
  eapply (done_offset_is_always_zero radius 7 (fresh 1024 rec_timestamp)
                                     (zeros 32) 0);
    [vm_compute; reflexivity | reflexivity].
Defined.

(** C4 (the code departs from it).  [outstanding] is to equal the
    entries handed out minus the entries freed.  After one [mod_read]
    on the 1025-byte file of C1 no entry was handed out and none freed, yet
    [outstanding] is 1: [done] is also the target of the [goto] that
    leaves [skip_record], and falls into [inst->outstanding++]. *)
Theorem outstanding_counts_a_dropped_record :
  exists inst',
    drive radius (fresh 1024 rec_1025) (mkTally 0 0)
          [CallRead 7 (zeros 4096) 0] = Returned (inst', mkTally 0 0) /\
    outstanding inst' = 1.
Proof.
  eexists. split; [vm_compute; reflexivity | reflexivity].
Qed.

(** ** C5: which newline the [(p + 1) == end] guard is about *)




(** ** C6: the rewind at eof *)

Lemma off_small (z : Z) : 0 <= z < 2 ^ 63 -> off z = z.
Proof.
  intros H. unfold off, wrap_signed.
  change (2 ^ (64 - 1)) with (2 ^ 63).
  assert (H64 : 2 ^ 64 = 2 * 2 ^ 63) by reflexivity.
  rewrite Z.mod_small by lia.
  destruct (z <? 2 ^ 63) eqn:E; [reflexivity|].
  apply Z.ltb_ge in E. lia.
Qed.

Lemma lseek_set_ok (f : file) (offset : Z) :
  f_open f = true -> 0 <= offset ->
  snd (lseek f offset SEEK_SET) = offset /\
  f_pos (fst (lseek f offset SEEK_SET)) = offset /\
  f_data (fst (lseek f offset SEEK_SET)) = f_data f /\
  f_open (fst (lseek f offset SEEK_SET)) = true.
Proof.
  intros Ho Hoff. unfold lseek. rewrite Ho.
  destruct (0 <=? offset) eqn:E; [|apply Z.leb_gt in E; lia].
  cbn. rewrite Ho. auto.
Qed.

(** C6 as stated fails.  On an empty file the first read returns 0
    bytes, so the stream is at eof with [read_offset] 0; the empty
    rest of the file is accepted as a record with a tracking entry,
    and the rewind is [lseek] to -1, which fails: the cursor stays at
    0, where the read left it, and [read_offset] becomes -1. *)
Lemma rewind_fails_on_an_empty_file :
  exists inst1 buffer1 end1 r t,
    fill (fresh 1024 []) (zeros 4) 0 = Filled inst1 buffer1 end1 /\
    eof inst1 = true /\ read_offset inst1 = 0 /\ f_pos (fd inst1) = 0 /\
    f_open (fd inst1) = true /\
    mod_read radius 7 (fresh 1024 []) (zeros 4) 0 = Returned r /\
    rr_packet_ctx r = Some t /\ rr_ret r = 0 /\
    eof (rr_inst r) = true /\ closing (rr_inst r) = true /\
    f_pos (fd (rr_inst r)) = 0 /\
    read_offset (rr_inst r) = -1 /\
    f_trace (fd (rr_inst r))
    = [SysRead 4 0; SysLseek 0 SEEK_CUR 0; SysLseek (-1) SEEK_SET (-1)].
Proof.
  do 5 eexists. split; [vm_compute; reflexivity|].
  do 4 (split; [reflexivity|]).
  split; [vm_compute; reflexivity|]. repeat split.
Qed.

(** C6, amended.  When [mod_read] hands out a tracking entry with the
    stream at eof, its last act on the file is [lseek] to one byte
    before [read_offset] as [fill] left it, [read_offset] takes the
    value that call returned, and [closing] becomes whether
    [*leftover] is 0.  With a valid descriptor and a [read_offset] of
    at least 1 the cursor and [read_offset] both end one byte back. *)
Theorem eof_rewind_then_closing (K : radius_constants) (now : Z)
        (inst : proto_detail_file_t) (buffer : list byte) (leftover : nat)
        (r : read_result) (t : fr_detail_entry_t) :
  mod_read K now inst buffer leftover = Returned r ->
  rr_packet_ctx r = Some t ->
  eof (rr_inst r) = true ->
  exists inst1 buffer1 end1,
    fill inst buffer leftover = Filled inst1 buffer1 end1 /\
    eof inst1 = true /\
    lseek (fd inst1) (off (read_offset inst1 - 1)) SEEK_SET
    = (fd (rr_inst r), read_offset (rr_inst r)) /\
    closing (rr_inst r) = (rr_leftover r =? 0)%nat /\
    (f_open (fd inst1) = true -> 1 <= read_offset inst1 < 2 ^ 63 ->
     f_pos (fd (rr_inst r)) = read_offset inst1 - 1 /\
     read_offset (rr_inst r) = read_offset inst1 - 1).
Proof.
  intros H Ht Heof.
  destruct (mod_read_accepts K now inst buffer leftover r t H Ht)
    as (_ & inst1 & buffer1 & end1 & Hfill & buffer' & leftover' & packet_len
        & _ & Ha).
  exists inst1, buffer1, end1. split; [exact Hfill|].
  unfold accept, done_label in Ha. cbn [eof with_header_offset] in Ha.
  destruct (eof inst1) eqn:E1.
  - split; [reflexivity|].
    unfold seek_read_offset in Ha. cbn [fd read_offset with_header_offset] in Ha.
    destruct (lseek (fd inst1) (off (read_offset inst1 - 1)) SEEK_SET)
      as [f' ro'] eqn:El.
    cbn in Ha. destruct (closing inst1); [discriminate|].
    inversion Ha; subst r; clear Ha. cbn.
    split; [reflexivity|]. split; [reflexivity|].
    intros Ho Hro. rewrite off_small in El by lia.
    destruct (lseek_set_ok (fd inst1) (read_offset inst1 - 1) Ho ltac:(lia))
      as (Hs & Hp & _).
    rewrite El in Hs, Hp. cbn in Hs, Hp. auto.
  - inversion Ha; subst r. cbn in Heof. congruence.
Qed.

(** C6, amended, at the one-record file "ab\n\n" read into a 16-byte buffer: the
    read ends at offset 4, the size of the file, and the cursor is put
    back to 3 with [closing] set. *)
Lemma eof_rewind_then_closing_example :
  exists r,
    mod_read radius 7 (fresh 1024 ab_record) (zeros 16) 0 = Returned r /\
    rr_ret r = 4 /\ rr_leftover r = 0%nat /\
    f_pos (fd (rr_inst r)) = 3 /\ read_offset (rr_inst r) = 3 /\
    closing (rr_inst r) = true /\
    f_trace (fd (rr_inst r))
    = [SysRead 16 4; SysLseek 0 SEEK_CUR 4; SysLseek 3 SEEK_SET 3] /\
    exists inst1 buffer1 end1,
      fill (fresh 1024 ab_record) (zeros 16) 0 = Filled inst1 buffer1 end1 /\
      eof inst1 = true /\
      lseek (fd inst1) (off (read_offset inst1 - 1)) SEEK_SET
      = (fd (rr_inst r), read_offset (rr_inst r)) /\
      closing (rr_inst r) = (rr_leftover r =? 0)%nat /\
      (f_open (fd inst1) = true -> 1 <= read_offset inst1 < 2 ^ 63 ->
       f_pos (fd (rr_inst r)) = read_offset inst1 - 1 /\
       read_offset (rr_inst r) = read_offset inst1 - 1).
Proof.
  eexists. split; [vm_compute; reflexivity|].
  do 6 (split; [reflexivity|]).
  eapply (eof_rewind_then_closing radius 7 (fresh 1024 ab_record) (zeros 16) 0).
  - vm_compute. reflexivity.
  - reflexivity.
  - reflexivity.
Defined.

(** ** C7 and C8: [mod_write] *)

(** What [overwrite] leaves in the file: [src] at [at_], every other
    byte as it was (a byte that was beyond the end reads as zero). *)
Lemma overwrite_byte_at (data : list byte) (at_ : nat) (src : list byte) (i : nat) :
  byte_at (overwrite data at_ src) i
  = if (at_ <=? i)%nat && (i <? at_ + length src)%nat
    then byte_at src (i - at_)
    else byte_at data i.
Proof.
  unfold byte_at, overwrite.
  assert (Hl : length (firstn at_ (data ++ repeat x00 (at_ - length data))) = at_).
  { rewrite length_firstn, length_app, repeat_length. lia. }
  destruct (at_ <=? i)%nat eqn:E1; cbn [andb].
  - apply Nat.leb_le in E1.
    rewrite app_nth2 by lia. rewrite Hl.
    destruct (i <? at_ + length src)%nat eqn:E2.
    + apply Nat.ltb_lt in E2. rewrite app_nth1 by lia. reflexivity.
    + apply Nat.ltb_ge in E2. rewrite app_nth2 by lia.
      rewrite nth_skipn. f_equal. lia.
  - apply Nat.leb_gt in E1.
    rewrite app_nth1 by lia. rewrite nth_firstn.
    destruct (i <? at_)%nat eqn:E3; [|apply Nat.ltb_ge in E3; lia].
    destruct (le_lt_dec (length data) i) as [Hge|Hlt].
    + rewrite app_nth2 by lia.
      rewrite (nth_overflow data) by lia.
      destruct (le_lt_dec (at_ - length data) (i - length data)) as [H1|H1].
      * rewrite nth_overflow; [reflexivity | rewrite repeat_length; lia].
      * apply nth_repeat_lt. exact H1.
    + rewrite app_nth1 by lia. reflexivity.
Qed.

Lemma lseek_trace (f : file) (offset : Z) (w : whence) :
  f_trace (fst (lseek f offset w))
  = f_trace f ++ [SysLseek offset w (snd (lseek f offset w))].
Proof.
  unfold lseek. destruct (f_open f && _); reflexivity.
Qed.

Lemma lseek_data (f : file) (offset : Z) (w : whence) :
  f_data (fst (lseek f offset w)) = f_data f.
Proof.
  unfold lseek. destruct (f_open f && _); reflexivity.
Qed.

Lemma write_trace (f : file) (src : list byte) :
  f_trace (fst (write f src)) = f_trace f ++ [SysWrite src (snd (write f src))].
Proof.
  unfold write. destruct (f_open f); reflexivity.
Qed.

Lemma write_ok (f : file) (src : list byte) :
  f_open f = true ->
  snd (write f src) = Z.of_nat (length src) /\
  f_data (fst (write f src)) = overwrite (f_data f) (Z.to_nat (f_pos f)) src /\
  f_pos (fst (write f src)) = f_pos f + Z.of_nat (length src) /\
  f_open (fst (write f src)) = true.
Proof.
  intros Ho. unfold write. rewrite Ho. cbn. auto.
Qed.

(** C7.  With [done_offset] 0 [mod_write] makes no call on the file at
    all.  With a positive [done_offset] and a non-zero leading byte its
    calls are exactly: seek to [done_offset], write the four bytes
    "Done", seek to [read_offset]; on a valid descriptor the first two
    succeed and the file holds "Done" at [done_offset] ([overwrite]),
    and with [read_offset] not negative the cursor ends at
    [read_offset]. *)
Theorem mod_write_marks_done (inst : proto_detail_file_t)
        (track : fr_detail_entry_t) (buffer : list byte) :
  (1 <= length buffer)%nat ->
  0 < outstanding inst ->
  exists w,
    mod_write inst track buffer = Returned w /\
    (done_offset track = 0 -> fd (wr_inst w) = fd inst) /\
    (0 < done_offset track -> byte_at buffer 0 <> x00 ->
     exists r1 r2 r3,
       f_trace (fd (wr_inst w))
       = f_trace (fd inst)
         ++ [SysLseek (done_offset track) SEEK_SET r1;
             SysWrite lit_Done4 r2;
             SysLseek (read_offset inst) SEEK_SET r3] /\
       (f_open (fd inst) = true ->
        r1 = done_offset track /\ r2 = 4 /\
        f_data (fd (wr_inst w))
        = overwrite (f_data (fd inst)) (Z.to_nat (done_offset track)) lit_Done4 /\
        (0 <= read_offset inst ->
         r3 = read_offset inst /\ f_pos (fd (wr_inst w)) = read_offset inst))).
Proof.
  intros Hlen Hout. unfold mod_write.
  destruct (length buffer <? 1)%nat eqn:E; [apply Nat.ltb_lt in E; lia|].
  destruct (0 <? outstanding inst) eqn:Eo; [|apply Z.ltb_ge in Eo; lia].
  cbn [negb]. eexists. split; [reflexivity|]. cbn [wr_inst].
  split.
  - intros Hd. rewrite Hd. cbn.
    destruct (Byte.eqb (byte_at buffer 0) x00); reflexivity.
  - intros Hd Hb. apply byte_eqb_false in Hb. rewrite Hb.
    destruct (0 <? done_offset track) eqn:Ed; [|apply Z.ltb_ge in Ed; lia].
    cbn [fd with_outstanding read_offset].
    pose proof (lseek_trace (fd inst) (done_offset track) SEEK_SET) as T1.
    pose proof (lseek_set_ok (fd inst) (done_offset track)) as O1.
    destruct (lseek (fd inst) (done_offset track) SEEK_SET) as [f1 r1].
    pose proof (write_trace f1 lit_Done4) as T2.
    pose proof (write_ok f1 lit_Done4) as O2.
    destruct (write f1 lit_Done4) as [f2 r2].
    pose proof (lseek_trace f2 (read_offset inst) SEEK_SET) as T3.
    pose proof (lseek_set_ok f2 (read_offset inst)) as O3.
    pose proof (lseek_data f2 (read_offset inst) SEEK_SET) as D3.
    destruct (lseek f2 (read_offset inst) SEEK_SET) as [f3 r3].
    cbn [fst snd] in *. cbn [fd with_fd].
    exists r1, r2, r3. split.
    + rewrite T3, T2, T1, <- !app_assoc. reflexivity.
    + intros Ho.
      destruct (O1 Ho ltac:(lia)) as (-> & Hp1 & Hd1 & Ho1).
      destruct (O2 Ho1) as (-> & Hd2 & _ & Ho2).
      split; [reflexivity|]. split; [reflexivity|]. split.
      * rewrite D3, Hd2, Hd1, Hp1. reflexivity.
      * intros Hr. destruct (O3 Ho2 Hr) as (-> & Hp3 & _). auto.
Qed.

(** C7 at a record marked in place: "Time" at offset 3 becomes "Done",
    the rest of the file is untouched, and the cursor is back at 17. *)
Lemma mod_write_marks_done_example :
  exists w,
    mod_write after_read entry_at_3 [x01] = Returned w /\
    f_data (fd (wr_inst w)) = rec_marked /\
    f_pos (fd (wr_inst w)) = 17 /\
    f_trace (fd (wr_inst w))
    = [SysLseek 3 SEEK_SET 3; SysWrite lit_Done4 4; SysLseek 17 SEEK_SET 17].
Proof.
  destruct (mod_write_marks_done after_read entry_at_3 [x01])
    as (w & Hw & _ & Hdone).
  - simpl. lia.
  - reflexivity.
  - destruct Hdone as (r1 & r2 & r3 & Ht & Hopen);
      [reflexivity | discriminate |].
    destruct (Hopen eq_refl) as (-> & -> & Hd & Hr).
    destruct Hr as (-> & Hp); [discriminate|].
    exists w. repeat split; assumption.
Defined.

(** C8 as stated fails.  On a closed descriptor both seeks and the
    write fail with -1, and [mod_write] still returns [buffer_len], 1:
    the three results are cast to [void]. *)
Lemma mod_write_ignores_failed_calls :
  exists w,
    mod_write detached entry_at_3 [x01] = Returned w /\
    wr_ret w = 1 /\
    f_trace (fd (wr_inst w))
    = [SysClose 0; SysLseek 3 SEEK_SET (-1); SysWrite lit_Done4 (-1);
       SysLseek 17 SEEK_SET (-1)] /\
    f_data (fd (wr_inst w)) = rec_timestamp.
Proof.
  eexists. split; [vm_compute; reflexivity|]. repeat split.
Qed.

(** C8, amended.  [mod_write] returns [buffer_len] whenever the buffer
    is not empty (and a record is outstanding), whatever its seeks and
    its write return; its one error return is -1 for an empty buffer,
    before the counter or the file is touched. *)
Theorem mod_write_return_value (inst : proto_detail_file_t)
        (track : fr_detail_entry_t) (buffer : list byte) :
  0 < outstanding inst \/ buffer = [] ->
  exists w,
    mod_write inst track buffer = Returned w /\
    wr_ret w = (if (length buffer <? 1)%nat then -1
                else Z.of_nat (length buffer)) /\
    (buffer = [] -> wr_inst w = inst).
Proof.
  intros H. unfold mod_write. destruct buffer as [|b buffer].
  - eexists. split; [reflexivity|]. split; [reflexivity|]. reflexivity.
  - destruct H as [H|H]; [|discriminate].
    change (length (b :: buffer) <? 1)%nat with false. cbv iota.
    destruct (0 <? outstanding inst) eqn:Eo; [|apply Z.ltb_ge in Eo; lia].
    cbn [negb]. eexists. split; [reflexivity|].
    split; [reflexivity | discriminate].
Qed.

(** C8, amended, on the closed descriptor: every call on the file
    fails and the return value is 1. *)
Lemma mod_write_return_value_example :
  exists w,
    mod_write detached entry_at_3 [x01] = Returned w /\ wr_ret w = 1.
Proof.
  destruct (mod_write_return_value detached entry_at_3 [x01])
    as (w & Hw & Hret & _).
  - left. reflexivity.
  - exists w. split; [exact Hw | exact Hret].
Defined.

(** ** C9: the priority table *)

Lemma designate_length (l : list Z) :
  forall i v, length (designate l i v) = length l.
Proof.
  induction l as [|x l IH]; intros [|i] v; simpl; auto.
Qed.

Lemma priorities_length (K : radius_constants) :
  length (priorities K) = FR_MAX_PACKET_CODE K.
Proof.
  unfold priorities. cbn [fold_left].
  rewrite !designate_length. apply repeat_length.
Qed.

Lemma priorities_at_inside (K : radius_constants) (i : nat) :
  (i < FR_MAX_PACKET_CODE K)%nat <-> exists v, priorities_at K i = InTable v.
Proof.
  unfold priorities_at. rewrite <- priorities_length.
  destruct (nth_error (priorities K) i) as [v|] eqn:E.
  - split; [eauto|]. intros _. apply nth_error_Some. congruence.
  - split.
    + intros H. apply nth_error_Some in H. congruence.
    + intros [v Hv]. discriminate.
Qed.

Lemma priorities_at_outside (K : radius_constants) (i : nat) :
  (FR_MAX_PACKET_CODE K <= i)%nat -> priorities_at K i = OutsideTable i.
Proof.
  intros H. unfold priorities_at.
  rewrite (proj2 (nth_error_None (priorities K) i));
    [reflexivity | rewrite priorities_length; exact H].
Qed.

(** C9.  The table has [FR_MAX_PACKET_CODE] entries; for every record
    handed out, [*priority] is the table read at the leading byte of
    the buffer, a number up to 255, with no test of that byte; the read
    is inside the table exactly when the byte is below
    [FR_MAX_PACKET_CODE]; and as [FR_MAX_PACKET_CODE] is below 256, the
    record "\377\n\n" is read outside it. *)
Theorem priority_index_is_unchecked (K : radius_constants) :
  (FR_MAX_PACKET_CODE K < 256)%nat ->
  length (priorities K) = FR_MAX_PACKET_CODE K /\
  (forall now inst buffer leftover r t,
      mod_read K now inst buffer leftover = Returned r ->
      rr_packet_ctx r = Some t ->
      rr_priority r
      = Some (priorities_at K (Byte.to_nat (byte_at (rr_buffer r) 0))) /\
      (Byte.to_nat (byte_at (rr_buffer r) 0) <= 255)%nat) /\
  (forall i, (i < FR_MAX_PACKET_CODE K)%nat
             <-> exists v, priorities_at K i = InTable v) /\
  (exists r t,
      mod_read K 7 (fresh 1024 rec_ff) (zeros 8) 0 = Returned r /\
      rr_packet_ctx r = Some t /\ rr_ret r = 3 /\
      rr_priority r = Some (OutsideTable 255)).
Proof.
  intros Hmax. split; [apply priorities_length|]. split; [|split].
  - intros now inst buffer leftover r t H Ht.
    destruct (mod_read_accepts K now inst buffer leftover r t H Ht)
      as (_ & inst1 & buffer1 & end1 & _ & buffer' & leftover' & packet_len
        & _ & Ha).
    unfold accept in Ha. apply done_label_fields in Ha.
    destruct Ha as (_ & -> & _ & _ & ->).
    split; [reflexivity | apply Byte.to_nat_bounded].
  - apply priorities_at_inside.
  - eexists. eexists. split.
    + cbv -[priorities_at]. reflexivity.
    + cbn [rr_packet_ctx rr_ret rr_priority].
      split; [reflexivity|]. split; [reflexivity|].
      f_equal. apply priorities_at_outside. lia.
Qed.

(** C9 with the constants of FreeRADIUS: 52 entries, and the leading
    byte 255 reads entry 255. *)
Lemma priority_index_is_unchecked_radius :
  length (priorities radius) = 52%nat /\
  exists r t,
    mod_read radius 7 (fresh 1024 rec_ff) (zeros 8) 0 = Returned r /\
    rr_packet_ctx r = Some t /\ rr_ret r = 3 /\
    rr_priority r = Some (OutsideTable 255).
Proof.
  destruct (priority_index_is_unchecked radius) as (Hl & _ & _ & Hex).
  - vm_compute. lia.
  - split; [exact Hl | exact Hex].
Defined.

(** ** C10: a full buffer with no delimiter *)

Lemma store_length (buffer : list byte) (at_ : nat) (src : list byte) :
  (at_ <= length buffer)%nat -> length (store buffer at_ src) = length buffer.
Proof.
  intros H. unfold store.
  rewrite length_firstn, !length_app, length_firstn, length_skipn. lia.
Qed.

(** A read that the file can satisfy in full. *)
Lemma read_full (f : file) (count : nat) :
  f_open f = true ->
  (Z.to_nat (f_pos f) + count <= length (f_data f))%nat ->
  read f count
  = (log (set_pos f (f_pos f + Z.of_nat count)) (SysRead count (Z.of_nat count)),
     (Z.of_nat count, firstn count (skipn (Z.to_nat (f_pos f)) (f_data f)))).
Proof.
  intros Ho Hlen. unfold read. rewrite Ho.
  rewrite length_firstn, length_skipn.
  replace (Nat.min count (length (f_data f) - Z.to_nat (f_pos f))) with count
    by lia.
  reflexivity.
Qed.

(** C10.  The stream is open and not at eof, the file can fill the
    whole room after the leftover bytes without reaching [file_size],
    and the filled buffer holds no delimiter: [mod_read] returns 0
    with [*leftover] equal to [buffer_len], and a further call with
    what it stored fails the assertion of line 113. *)
Theorem full_buffer_breaks_the_next_call (K : radius_constants) (now : Z)
        (inst : proto_detail_file_t) (buffer : list byte) (leftover : nat) :
  closing inst = false ->
  eof inst = false ->
  (leftover < length buffer)%nat ->
  f_open (fd inst) = true ->
  0 <= f_pos (fd inst) ->
  (Z.to_nat (f_pos (fd inst)) + (length buffer - leftover)
   <= length (f_data (fd inst)))%nat ->
  f_pos (fd inst) + Z.of_nat (length buffer - leftover) <> file_size inst ->
  (forall j,
      ~ eor_at (store buffer leftover
                      (firstn (length buffer - leftover)
                              (skipn (Z.to_nat (f_pos (fd inst)))
                                     (f_data (fd inst))))) j) ->
  exists r,
    mod_read K now inst buffer leftover = Returned r /\
    rr_ret r = 0 /\
    rr_leftover r = length (rr_buffer r) /\
    length (rr_buffer r) = length buffer /\
    forall now',
      mod_read K now' (rr_inst r) (rr_buffer r) (rr_leftover r) = Aborted.
Proof.
  intros Hc He Hl Ho Hp Hfull Hsize Hnone.
  unfold mod_read at 1.
  destruct (leftover <? length buffer)%nat eqn:E; [|apply Nat.ltb_ge in E; lia].
  cbn [negb]. rewrite Hc. unfold fill. rewrite He. cbn [negb].
  rewrite (read_full _ _ Ho Hfull).
  destruct (Z.of_nat (length buffer - leftover) <? 0) eqn:Eneg;
    [apply Z.ltb_lt in Eneg; lia|].
  unfold seek_read_offset, lseek.
  cbn [fd with_fd f_open f_pos log set_pos]. rewrite Ho.
  destruct (0 <=? f_pos (fd inst) + Z.of_nat (length buffer - leftover) + 0)
    eqn:Epos; [|apply Z.leb_gt in Epos; lia].
  cbn [andb read_offset with_read_offset with_fd file_size eof with_eof].
  destruct (Z.of_nat (length buffer - leftover) =? 0) eqn:Ez;
    [apply Z.eqb_eq in Ez; lia|].
  destruct (f_pos (fd inst) + Z.of_nat (length buffer - leftover) + 0
            =? file_size inst) eqn:Es; [apply Z.eqb_eq in Es; lia|].
  cbn [orb]. rewrite redo_step.
  rewrite find_next_none_intro by (intros j _ _; apply Hnone).
  cbn [eof]. eexists. split; [reflexivity|].
  cbn [rr_ret rr_leftover rr_buffer rr_inst].
  rewrite store_length by lia. rewrite Nat2Z.id.
  split; [reflexivity|]. split; [lia|]. split; [reflexivity|].
  intros now'. unfold mod_read. rewrite store_length by lia.
  replace (leftover + (length buffer - leftover))%nat with (length buffer) by lia.
  rewrite Nat.ltb_irrefl. reflexivity.
Qed.

(** C10 on the file "abcdefgh" read into a 4-byte buffer. *)
Lemma full_buffer_breaks_the_next_call_example :
  exists r,
    mod_read radius 7 (fresh 1024 rec_abcdefgh) (zeros 4) 0 = Returned r /\
    rr_ret r = 0 /\
    rr_leftover r = length (rr_buffer r) /\
    length (rr_buffer r) = length (zeros 4) /\
    forall now',
      mod_read radius now' (rr_inst r) (rr_buffer r) (rr_leftover r) = Aborted.
Proof.
  apply (full_buffer_breaks_the_next_call
           radius 7 (fresh 1024 rec_abcdefgh) (zeros 4) 0).
  - reflexivity.
  - reflexivity.
  - simpl. lia.
  - reflexivity.
  - simpl. lia.
  - simpl. lia.
  - vm_compute. discriminate.
  - intros j [H1 H2]. vm_compute in H1, H2.
    destruct j as [|[|[|[|j]]]]; discriminate.
Defined.

(** * Further properties of the reader and the acknowledger *)

(** ** The buffer and the file under [fill] *)

Lemma store_exact (buffer : list byte) (at_ : nat) (src : list byte) :
  (at_ + length src <= length buffer)%nat ->
  store buffer at_ src
  = firstn at_ buffer ++ src ++ skipn (at_ + length src) buffer.
Proof.
  intros H. unfold store. apply firstn_all2.
  rewrite !length_app, length_firstn, length_skipn. lia.
Qed.

Lemma store_byte_at (buffer : list byte) (at_ : nat) (src : list byte) (j : nat) :
  (at_ + length src <= length buffer)%nat ->
  byte_at (store buffer at_ src) j
  = if (at_ <=? j)%nat && (j <? at_ + length src)%nat
    then byte_at src (j - at_)
    else byte_at buffer j.
Proof.
  intros H. rewrite store_exact by exact H. unfold byte_at.
  assert (Hl : length (firstn at_ buffer) = at_)
    by (rewrite length_firstn; lia).
  destruct (at_ <=? j)%nat eqn:E1; cbn [andb].
  - apply Nat.leb_le in E1. rewrite app_nth2 by lia. rewrite Hl.
    destruct (j <? at_ + length src)%nat eqn:E2.
    + apply Nat.ltb_lt in E2. rewrite app_nth1 by lia. reflexivity.
    + apply Nat.ltb_ge in E2. rewrite app_nth2 by lia.
      rewrite nth_skipn. f_equal. lia.
  - apply Nat.leb_gt in E1. rewrite app_nth1 by lia.
    rewrite nth_firstn.
    destruct (j <? at_)%nat eqn:E3; [reflexivity|].
    apply Nat.ltb_ge in E3. lia.
Qed.

Lemma lseek_open (f : file) (offset : Z) (w : whence) :
  f_open (fst (lseek f offset w)) = f_open f.
Proof.
  unfold lseek. destruct (f_open f && _) eqn:E; [|reflexivity].
  cbn. reflexivity.
Qed.

(** What [fill] leaves of the instance and the buffer when it gets to
    the scan. *)
Lemma fill_filled (inst inst1 : proto_detail_file_t)
      (buffer buffer1 : list byte) (leftover end1 : nat) :
  fill inst buffer leftover = Filled inst1 buffer1 end1 ->
  (leftover < length buffer)%nat ->
  length buffer1 = length buffer /\
  (leftover <= end1 <= length buffer)%nat /\
  parent inst1 = parent inst /\ file_size inst1 = file_size inst /\
  outstanding inst1 = outstanding inst /\
  header_offset inst1 = header_offset inst /\
  closing inst1 = closing inst /\
  f_data (fd inst1) = f_data (fd inst) /\
  f_open (fd inst1) = f_open (fd inst).
Proof.
  unfold fill. intros H Hl.
  destruct (eof inst); cbn [negb] in H.
  - destruct (0 <? leftover)%nat; [|discriminate].
    inversion H; subst. repeat split; lia.
  - unfold read in H. destruct (f_open (fd inst)) eqn:Ho.
    + set (got := firstn (length buffer - leftover)
                         (skipn (Z.to_nat (f_pos (fd inst))) (f_data (fd inst))))
        in H.
      assert (Hg : (length got <= length buffer - leftover)%nat)
        by (subst got; rewrite length_firstn; lia).
      destruct (Z.of_nat (length got) <? 0) eqn:En;
        [apply Z.ltb_lt in En; lia|].
      unfold seek_read_offset in H.
      pose proof (lseek_data (fd (with_fd inst
          (log (set_pos (fd inst) (f_pos (fd inst) + Z.of_nat (length got)))
               (SysRead (length buffer - leftover) (Z.of_nat (length got))))))
          0 SEEK_CUR) as Hd.
      pose proof (lseek_open (fd (with_fd inst
          (log (set_pos (fd inst) (f_pos (fd inst) + Z.of_nat (length got)))
               (SysRead (length buffer - leftover) (Z.of_nat (length got))))))
          0 SEEK_CUR) as Hop.
      destruct (lseek _ 0 SEEK_CUR) as [f' ro'].
      cbn [fst fd with_fd f_data f_open log set_pos] in Hd, Hop.
      inversion H; subst inst1 buffer1 end1; clear H. cbn.
      rewrite store_length by lia. rewrite Nat2Z.id.
      repeat split; try lia; try assumption. congruence.
    + cbn in H. discriminate.
Qed.

(** ** The ways out of [redo] *)

Lemma memmove_front_length (buffer : list byte) (from n : nat) :
  length (memmove_front buffer from n) = length buffer.
Proof.
  unfold memmove_front. apply store_length. lia.
Qed.

Section Exits.

Variable K : radius_constants.

(** [redo] returns in one of three ways: it asks for more data, it
    accepts a record within the maximum, or it leaves through
    [skip_record] with an oversize record that has no [next]. *)
Lemma redo_exits (now : Z) (inst : proto_detail_file_t) (r : read_result) :
  forall fuel buffer leftover partial end_,
    redo K fuel now inst buffer leftover partial end_ = Returned r ->
    (end_ <= length buffer)%nat ->
    exists buffer' end',
      length buffer' = length buffer /\ (end' <= end_)%nat /\
      ((eof inst = false /\ r = mkRead 0 inst buffer' end' None None) \/
       (exists n, (n <= end')%nat /\
                  Z.of_nat n <= max_packet_size (parent inst) /\
                  accept K now inst buffer' (end' - n) n 0 = Returned r) \/
       (eof inst = true /\
        max_packet_size (parent inst) < Z.of_nat end' /\
        done_label inst buffer' O end' None None = Returned r)).
Proof.
  induction fuel as [|fuel IH]; intros buffer leftover partial end_ H Hle;
    [discriminate|].
  rewrite redo_step in H.
  destruct (find_next buffer _ end_) as [n|] eqn:E.
  - apply find_next_found in E. destruct E as (i & -> & _ & Hie & _).
    destruct (_ <? _) eqn:Em.
    + apply IH in H; [|rewrite memmove_front_length; lia].
      destruct H as (buffer' & end' & Hlen & Hend & Hcases).
      exists buffer', end'. rewrite memmove_front_length in Hlen.
      split; [exact Hlen|]. split; [lia | exact Hcases].
    + apply Z.ltb_ge in Em. exists buffer, end_.
      split; [reflexivity|]. split; [lia|]. right. left.
      exists (i + 2)%nat. auto.
  - exists buffer, end_. split; [reflexivity|]. split; [lia|].
    destruct (eof inst) eqn:Ee.
    + destruct (_ <? _) eqn:Em.
      * apply Z.ltb_lt in Em. right. right. auto.
      * apply Z.ltb_ge in Em. right. left. exists end_.
        rewrite Nat.sub_diag. auto.
    + left. inversion H. auto.
Qed.

End Exits.

(** What [done] changes of the instance: the counter, and at eof the
    cursor, [read_offset] and [closing]. *)
Lemma done_label_keeps (inst : proto_detail_file_t) (buffer : list byte)
      (leftover packet_len : nat) (ctx : option fr_detail_entry_t)
      (prio : option table_read) (r : read_result) :
  done_label inst buffer leftover packet_len ctx prio = Returned r ->
  parent (rr_inst r) = parent inst /\ file_size (rr_inst r) = file_size inst /\
  eof (rr_inst r) = eof inst /\
  header_offset (rr_inst r) = header_offset inst /\
  f_data (fd (rr_inst r)) = f_data (fd inst) /\
  f_open (fd (rr_inst r)) = f_open (fd inst) /\
  closing (rr_inst r)
  = (if eof inst then (leftover =? 0)%nat else closing inst).
Proof.
  unfold done_label, seek_read_offset. intros H.
  pose proof (lseek_data (fd inst) (off (read_offset inst - 1)) SEEK_SET) as Hd.
  pose proof (lseek_open (fd inst) (off (read_offset inst - 1)) SEEK_SET) as Ho.
  destruct (lseek (fd inst) _ SEEK_SET) as [f' ro']. cbn [fst] in Hd, Ho.
  destruct (eof inst) eqn:Ee.
  - cbn in H. destruct (closing inst) eqn:Ec; [discriminate|].
    inversion H; subst r; cbn. auto 10.
  - inversion H; subst r; cbn. auto 10.
Qed.

(** The same for [accept], which also moves [header_offset]. *)
Lemma accept_keeps (K : radius_constants) (now : Z)
      (inst : proto_detail_file_t) (buffer : list byte)
      (leftover packet_len : nat) (d : Z) (r : read_result) :
  accept K now inst buffer leftover packet_len d = Returned r ->
  rr_ret r = Z.of_nat packet_len /\ rr_buffer r = buffer /\
  rr_leftover r = leftover /\ rr_packet_ctx r = Some (mkEntry now d) /\
  parent (rr_inst r) = parent inst /\ file_size (rr_inst r) = file_size inst /\
  eof (rr_inst r) = eof inst /\
  header_offset (rr_inst r) = off (header_offset inst + Z.of_nat packet_len) /\
  outstanding (rr_inst r) = int32 (outstanding inst + 1) /\
  f_data (fd (rr_inst r)) = f_data (fd inst) /\
  f_open (fd (rr_inst r)) = f_open (fd inst) /\
  closing (rr_inst r)
  = (if eof inst then (leftover =? 0)%nat else closing inst).
Proof.
  unfold accept. intros H.
  pose proof (done_label_fields _ _ _ _ _ _ _ H) as (H1 & H2 & H3 & H4 & _).
  pose proof (done_label_outstanding _ _ _ _ _ _ _ H) as H5.
  pose proof (done_label_keeps _ _ _ _ _ _ _ H)
    as (H6 & H7 & H8 & H9 & H10 & H11 & H12).
  cbn in H5, H6, H7, H8, H9, H10, H11, H12. auto 15.
Qed.

(** [accept] and [done] return unless the instance is at eof and
    already closing. *)
Lemma done_label_returns (inst : proto_detail_file_t) (buffer : list byte)
      (leftover packet_len : nat) (ctx : option fr_detail_entry_t)
      (prio : option table_read) :
  closing inst = false ->
  exists r, done_label inst buffer leftover packet_len ctx prio = Returned r.
Proof.
  intros Hc. unfold done_label, seek_read_offset.
  destruct (lseek (fd inst) _ SEEK_SET) as [f' ro'].
  destruct (eof inst); [cbn; rewrite Hc|]; eauto.
Qed.

Lemma fill_failed (inst inst1 : proto_detail_file_t) (buffer : list byte)
      (leftover : nat) :
  fill inst buffer leftover = ReadFailed inst1 ->
  eof inst = false /\ f_open (fd inst) = false /\
  inst1 = with_fd inst (log (fd inst)
                            (SysRead (length buffer - leftover) (-1))).
Proof.
  unfold fill. intros H. destruct (eof inst); cbn [negb] in H.
  - destruct (0 <? leftover)%nat; discriminate.
  - unfold read in H. destruct (f_open (fd inst)).
    + destruct (Z.of_nat _ <? 0) eqn:En; [apply Z.ltb_lt in En; lia|].
      discriminate.
    + cbn in H. inversion H. auto.
Qed.

Section Reader.

Variable K : radius_constants.

(** The three ways [mod_read] returns: the stream is closing, the read
    failed, or the scan was reached. *)
Lemma mod_read_exits (now : Z) (inst : proto_detail_file_t)
      (buffer : list byte) (leftover : nat) (r : read_result) :
  mod_read K now inst buffer leftover = Returned r ->
  (leftover < length buffer)%nat /\
  ((closing inst = true /\
    r = mkRead 0 (seek_read_offset inst (file_size inst) SEEK_SET)
               buffer leftover None None) \/
   (closing inst = false /\
    exists inst1, fill inst buffer leftover = ReadFailed inst1 /\
                  r = mkRead (-1) inst1 buffer leftover None None) \/
   (closing inst = false /\
    exists inst1 buffer1 end1,
      fill inst buffer leftover = Filled inst1 buffer1 end1 /\
      redo K (S end1) now inst1 buffer1 leftover leftover end1 = Returned r)).
Proof.
  unfold mod_read. intros H.
  destruct (leftover <? length buffer)%nat eqn:E; cbn [negb] in H;
    [|discriminate].
  apply Nat.ltb_lt in E. split; [exact E|].
  destruct (closing inst).
  - left. inversion H. auto.
  - right. destruct (fill inst buffer leftover) as [inst1 buffer1 end1|inst1|];
      [right | left | discriminate].
    + split; [reflexivity|]. eauto.
    + split; [reflexivity|]. exists inst1. inversion H. auto.
Qed.

(** X7.  [mod_read] only reads: whatever it returns, the bytes of the file
    are as they were, the descriptor is as valid as it was, and
    [file_size], the maximum record size and [eof]'s stickiness are
    untouched (once at eof, always at eof). *)
Theorem mod_read_keeps_the_file (now : Z) (inst : proto_detail_file_t)
        (buffer : list byte) (leftover : nat) (r : read_result) :
  mod_read K now inst buffer leftover = Returned r ->
  f_data (fd (rr_inst r)) = f_data (fd inst) /\
  f_open (fd (rr_inst r)) = f_open (fd inst) /\
  file_size (rr_inst r) = file_size inst /\
  parent (rr_inst r) = parent inst /\
  (eof inst = true -> eof (rr_inst r) = true).
Proof.
  intros H. apply mod_read_exits in H.
  destruct H as (Hl & [(Hc & ->)|[(Hc & inst1 & Hf & ->)|(Hc & inst1 & buffer1 & end1 & Hf & Hr)]]).
  - cbn [rr_inst]. unfold seek_read_offset.
    pose proof (lseek_data (fd inst) (file_size inst) SEEK_SET) as Hd.
    pose proof (lseek_open (fd inst) (file_size inst) SEEK_SET) as Ho.
    destruct (lseek (fd inst) _ SEEK_SET) as [f' ro']. cbn in *. auto.
  - apply fill_failed in Hf. destruct Hf as (He & Ho & ->). cbn.
    repeat split; try reflexivity. congruence.
  - pose proof (fill_filled _ _ _ _ _ _ Hf Hl)
      as (Hlen & Hend & Hp & Hfs & _ & _ & _ & Hd & Ho).
    assert (Heof : eof inst = true -> eof inst1 = true).
    { intros He. unfold fill in Hf. rewrite He in Hf. cbn [negb] in Hf.
      destruct (0 <? leftover)%nat; [|discriminate].
      inversion Hf; subst. exact He. }
    apply redo_exits in Hr; [|lia].
    destruct Hr as (buffer' & end' & _ & _ & [(He & ->)|[(n & _ & _ & Ha)|(He & _ & Hd')]]).
    + cbn [rr_inst]. repeat split; assumption.
    + apply accept_keeps in Ha.
      destruct Ha as (_ & _ & _ & _ & Hp' & Hfs' & He' & _ & _ & Hd' & Ho' & _).
      repeat split; try congruence. intros He''. rewrite He'. auto.
    + apply done_label_keeps in Hd'.
      destruct Hd' as (Hp' & Hfs' & He' & _ & Hd' & Ho' & _).
      repeat split; congruence.
Qed.

(** X8.  The record and the bytes left over lie inside the buffer: the
    buffer keeps its length, and the return value plus [*leftover] never
    exceeds it. *)
Theorem mod_read_stays_in_the_buffer (now : Z) (inst : proto_detail_file_t)
        (buffer : list byte) (leftover : nat) (r : read_result) :
  mod_read K now inst buffer leftover = Returned r ->
  length (rr_buffer r) = length buffer /\
  -1 <= rr_ret r /\
  rr_ret r + Z.of_nat (rr_leftover r) <= Z.of_nat (length buffer).
Proof.
  intros H. apply mod_read_exits in H.
  destruct H as (Hl & [(Hc & ->)|[(Hc & inst1 & Hf & ->)|(Hc & inst1 & buffer1 & end1 & Hf & Hr)]]).
  - cbn [rr_ret rr_buffer rr_leftover]. split; [reflexivity|]. split; lia.
  - cbn [rr_ret rr_buffer rr_leftover]. split; [reflexivity|]. split; lia.
  - pose proof (fill_filled _ _ _ _ _ _ Hf Hl) as (Hlen & Hend & _).
    apply redo_exits in Hr; [|lia].
    destruct Hr as (buffer' & end' & Hlen' & Hend' & [(He & ->)|[(n & Hn & _ & Ha)|(He & _ & Hd')]]).
    + cbn [rr_ret rr_buffer rr_leftover]. split; [lia|]. split; lia.
    + apply accept_keeps in Ha. destruct Ha as (-> & -> & -> & _).
      split; [lia|]. split; lia.
    + apply done_label_fields in Hd'. destruct Hd' as (-> & -> & -> & _).
      split; [lia|]. split; lia.
Qed.

(** X9.  [header_offset] moves exactly when a tracking entry is handed out,
    and then by the length returned; the entry carries the time of the
    call. *)
Theorem mod_read_header_offset (now : Z) (inst : proto_detail_file_t)
        (buffer : list byte) (leftover : nat) (r : read_result) :
  mod_read K now inst buffer leftover = Returned r ->
  match rr_packet_ctx r with
  | Some t =>
      header_offset (rr_inst r) = off (header_offset inst + rr_ret r) /\
      timestamp t = now
  | None => header_offset (rr_inst r) = header_offset inst
  end.
Proof.
  intros H. apply mod_read_exits in H.
  destruct H as (Hl & [(Hc & ->)|[(Hc & inst1 & Hf & ->)|(Hc & inst1 & buffer1 & end1 & Hf & Hr)]]).
  - cbn. unfold seek_read_offset.
    destruct (lseek (fd inst) _ SEEK_SET). reflexivity.
  - apply fill_failed in Hf. destruct Hf as (_ & _ & ->). reflexivity.
  - pose proof (fill_filled _ _ _ _ _ _ Hf Hl)
      as (Hlen & Hend & _ & _ & _ & Hh & _).
    apply redo_exits in Hr; [|lia].
    destruct Hr as (buffer' & end' & _ & _ & [(He & ->)|[(n & _ & _ & Ha)|(He & _ & Hd')]]).
    + cbn. exact Hh.
    + apply accept_keeps in Ha.
      destruct Ha as (-> & _ & _ & -> & _ & _ & _ & Hh' & _).
      rewrite Hh'. rewrite Hh. split; reflexivity.
    + pose proof (done_label_fields _ _ _ _ _ _ _ Hd') as (_ & _ & _ & -> & _).
      apply done_label_keeps in Hd'.
      destruct Hd' as (_ & _ & _ & Hh' & _). congruence.
Qed.

(** X10.  The counter goes up by one exactly when the call hands out a
    tracking entry or returns a positive length, and is otherwise left
    alone (the maximum record size being an unsigned number). *)
Theorem mod_read_counter (now : Z) (inst : proto_detail_file_t)
        (buffer : list byte) (leftover : nat) (r : read_result) :
  0 <= max_packet_size (parent inst) ->
  mod_read K now inst buffer leftover = Returned r ->
  outstanding (rr_inst r)
  = if match rr_packet_ctx r with Some _ => true | None => false end
       || (0 <? rr_ret r)
    then int32 (outstanding inst + 1)
    else outstanding inst.
Proof.
  intros Hmax H. apply mod_read_exits in H.
  destruct H as (Hl & [(Hc & ->)|[(Hc & inst1 & Hf & ->)|(Hc & inst1 & buffer1 & end1 & Hf & Hr)]]).
  - cbn. unfold seek_read_offset.
    destruct (lseek (fd inst) _ SEEK_SET). reflexivity.
  - apply fill_failed in Hf. destruct Hf as (_ & _ & ->). reflexivity.
  - pose proof (fill_filled _ _ _ _ _ _ Hf Hl)
      as (Hlen & Hend & Hp & _ & Ho & _).
    apply redo_exits in Hr; [|lia].
    destruct Hr as (buffer' & end' & _ & _ & [(He & ->)|[(n & _ & _ & Ha)|(He & Hm & Hd')]]).
    + cbn. exact Ho.
    + apply accept_keeps in Ha.
      destruct Ha as (_ & _ & _ & -> & _ & _ & _ & _ & Ho' & _).
      cbn. congruence.
    + pose proof (done_label_fields _ _ _ _ _ _ _ Hd') as (-> & _ & _ & -> & _).
      apply done_label_outstanding in Hd'.
      rewrite Hp in Hm.
      destruct (0 <? Z.of_nat end') eqn:E; [|apply Z.ltb_ge in E; lia].
      cbn. congruence.
Qed.

End Reader.

(** ** What one call returns *)

(** [fill] on a valid descriptor, not at eof: the room after the
    leftover bytes takes what the file has from the cursor on. *)
Lemma fill_open (inst : proto_detail_file_t) (buffer : list byte)
      (leftover : nat) :
  eof inst = false ->
  f_open (fd inst) = true ->
  0 <= f_pos (fd inst) ->
  exists inst1,
    fill inst buffer leftover
    = Filled inst1
        (store buffer leftover
               (firstn (length buffer - leftover)
                       (skipn (Z.to_nat (f_pos (fd inst))) (f_data (fd inst)))))
        (leftover
         + length (firstn (length buffer - leftover)
                          (skipn (Z.to_nat (f_pos (fd inst)))
                                 (f_data (fd inst))))) /\
    eof inst1
    = ((Z.of_nat (length (firstn (length buffer - leftover)
                           (skipn (Z.to_nat (f_pos (fd inst)))
                                  (f_data (fd inst))))) =? 0)
       || (f_pos (fd inst)
           + Z.of_nat (length (firstn (length buffer - leftover)
                                (skipn (Z.to_nat (f_pos (fd inst)))
                                       (f_data (fd inst)))))
           =? file_size inst)) /\
    closing inst1 = closing inst /\ parent inst1 = parent inst /\
    outstanding inst1 = outstanding inst /\
    header_offset inst1 = header_offset inst.
Proof.
  intros He Ho Hp. unfold fill. rewrite He. cbn [negb].
  unfold read. rewrite Ho.
  set (got := firstn (length buffer - leftover)
                     (skipn (Z.to_nat (f_pos (fd inst))) (f_data (fd inst)))).
  destruct (Z.of_nat (length got) <? 0) eqn:En; [apply Z.ltb_lt in En; lia|].
  unfold seek_read_offset, lseek.
  cbn [fd with_fd f_open f_pos log set_pos]. rewrite Ho.
  destruct (0 <=? f_pos (fd inst) + Z.of_nat (length got) + 0) eqn:E0;
    [|apply Z.leb_gt in E0; lia].
  cbn [andb]. eexists. split.
  - rewrite Nat2Z.id. reflexivity.
  - cbn. rewrite Z.add_0_r. auto.
Qed.

Lemma firstn_store_front (buffer src : list byte) :
  (length src <= length buffer)%nat ->
  firstn (length src) (store buffer 0 src) = src.
Proof.
  intros H. rewrite store_exact by (cbn; lia). cbn [firstn app].
  rewrite firstn_app, Nat.sub_diag, firstn_all. cbn [firstn].
  apply app_nil_r.
Qed.

Lemma eor_at_store_front (buffer src : list byte) (j : nat) :
  (length src <= length buffer)%nat -> (S j < length src)%nat ->
  eor_at (store buffer 0 src) j <-> eor_at src j.
Proof.
  intros H Hj. unfold eor_at.
  rewrite !store_byte_at by (cbn; lia).
  cbn [Nat.leb andb Nat.add].
  destruct (j <? length src)%nat eqn:E1; [|apply Nat.ltb_ge in E1; lia].
  destruct (S j <? length src)%nat eqn:E2; [|apply Nat.ltb_ge in E2; lia].
  rewrite !Nat.sub_0_r. reflexivity.
Qed.

(** A scan of the last byte alone finds nothing. *)
Lemma find_next_last_byte (buffer : list byte) (end_ : nat) :
  (0 < end_)%nat -> find_next buffer (end_ - 1) end_ = None.
Proof.
  intros H. unfold find_next.
  replace (end_ - (end_ - 1))%nat with 1%nat by lia. cbn [scan_eor].
  destruct (Byte.eqb (byte_at buffer (end_ - 1)) LF); cbn [negb];
    [|reflexivity].
  replace (S (end_ - 1)) with end_ by lia. rewrite Nat.eqb_refl. reflexivity.
Qed.

Section OneCall.

Variable K : radius_constants.

(** X1.  The first record of the data read.  On an open stream with nothing
    left over, when the bytes read hold their first "\n\n" at index
    [n] and the record up to and including it is within the maximum,
    [mod_read] returns that record's length [n + 2], leaves the record
    at the front of the buffer and the rest of the bytes read as
    leftover, and moves [header_offset] by [n + 2]. *)
Theorem mod_read_first_record (now : Z) (inst : proto_detail_file_t)
        (buffer : list byte) (n : nat) :
  closing inst = false ->
  eof inst = false ->
  f_open (fd inst) = true ->
  0 <= f_pos (fd inst) ->
  (n + 2 <= length (firstn (length buffer)
                           (skipn (Z.to_nat (f_pos (fd inst)))
                                  (f_data (fd inst)))))%nat ->
  eor_at (firstn (length buffer)
                 (skipn (Z.to_nat (f_pos (fd inst))) (f_data (fd inst)))) n ->
  (forall j, (j < n)%nat ->
     ~ eor_at (firstn (length buffer)
                      (skipn (Z.to_nat (f_pos (fd inst))) (f_data (fd inst))))
              j) ->
  Z.of_nat (n + 2) <= max_packet_size (parent inst) ->
  exists r,
    mod_read K now inst buffer 0 = Returned r /\
    rr_ret r = Z.of_nat (n + 2) /\
    rr_leftover r
    = (length (firstn (length buffer)
                      (skipn (Z.to_nat (f_pos (fd inst))) (f_data (fd inst))))
       - (n + 2))%nat /\
    firstn (n + 2) (rr_buffer r)
    = firstn (n + 2) (skipn (Z.to_nat (f_pos (fd inst))) (f_data (fd inst))) /\
    rr_packet_ctx r = Some (mkEntry now 0) /\
    header_offset (rr_inst r) = off (header_offset inst + Z.of_nat (n + 2)) /\
    outstanding (rr_inst r) = int32 (outstanding inst + 1).
Proof.
  intros Hc He Ho Hp.
  set (got := firstn (length buffer)
                     (skipn (Z.to_nat (f_pos (fd inst))) (f_data (fd inst)))).
  intros Hn Hat Hmin Hmax.
  assert (Hgl : (length got <= length buffer)%nat)
    by (subst got; rewrite length_firstn; lia).
  unfold mod_read.
  destruct (0 <? length buffer)%nat eqn:E; [|apply Nat.ltb_ge in E; lia].
  cbn [negb]. rewrite Hc.
  destruct (fill_open inst buffer 0 He Ho Hp)
    as (inst1 & Hf & _ & Hc1 & Hp1 & Ho1 & Hh1).
  rewrite Nat.sub_0_r in Hf. fold got in Hf. rewrite Hf. cbn [Nat.add].
  rewrite redo_step. cbn [scan_start Nat.ltb Nat.leb].
  assert (Hfind : find_next (store buffer 0 got) 0 (length got)
                  = Some (n + 2)%nat).
  { apply find_next_found_intro; try lia.
    - apply eor_at_store_front; [lia | lia | exact Hat].
    - intros j Hj Hc'. apply (Hmin j); [lia|].
      apply (eor_at_store_front buffer got j); [lia | lia | exact Hc']. }
  rewrite Hfind. rewrite Hp1.
  destruct (_ <? _) eqn:Em; [apply Z.ltb_lt in Em; lia|].
  assert (Hc2 : closing (with_header_offset inst1
                  (off (header_offset inst1 + Z.of_nat (n + 2)))) = false)
    by (cbn; congruence).
  destruct (done_label_returns _ (store buffer 0 got)
              (length got - (n + 2))%nat (n + 2)%nat
              (Some (mkEntry now 0))
              (Some (priorities_at K (Byte.to_nat
                                        (byte_at (store buffer 0 got) 0))))
              Hc2) as (r & Hr).
  exists r. split; [exact Hr|].
  apply (accept_keeps K now inst1) in Hr.
  destruct Hr as (-> & -> & -> & -> & _ & _ & _ & -> & -> & _).
  repeat split; try congruence.
  transitivity (firstn (n + 2) (firstn (length got) (store buffer 0 got))).
  - rewrite firstn_firstn. f_equal. lia.
  - rewrite (firstn_store_front buffer got Hgl). subst got.
    rewrite firstn_firstn. f_equal. lia.
Qed.

End OneCall.

Section LastRecord.

Variable K : radius_constants.

(** X2.  The last record of the file.  On an open stream with nothing left
    over, whose file has not grown since [mod_open], when the bytes
    from the cursor to the end fit in the buffer, hold no "\n\n" except
    possibly as their last two bytes, and are within the maximum,
    [mod_read] returns all of them as one record (with or without the
    terminator), leaves nothing over and sets [closing]. *)
Theorem mod_read_last_record (now : Z) (inst : proto_detail_file_t)
        (buffer : list byte) :
  closing inst = false ->
  eof inst = false ->
  f_open (fd inst) = true ->
  0 <= f_pos (fd inst) <= file_size inst ->
  file_size inst = Z.of_nat (length (f_data (fd inst))) ->
  (0 < length buffer)%nat ->
  (length (skipn (Z.to_nat (f_pos (fd inst))) (f_data (fd inst)))
   <= length buffer)%nat ->
  (forall j,
     (j + 2 < length (skipn (Z.to_nat (f_pos (fd inst)))
                            (f_data (fd inst))))%nat ->
     ~ eor_at (skipn (Z.to_nat (f_pos (fd inst))) (f_data (fd inst))) j) ->
  Z.of_nat (length (skipn (Z.to_nat (f_pos (fd inst))) (f_data (fd inst))))
  <= max_packet_size (parent inst) ->
  exists r,
    mod_read K now inst buffer 0 = Returned r /\
    rr_ret r
    = Z.of_nat (length (skipn (Z.to_nat (f_pos (fd inst)))
                              (f_data (fd inst)))) /\
    rr_leftover r = O /\
    firstn (length (skipn (Z.to_nat (f_pos (fd inst))) (f_data (fd inst))))
           (rr_buffer r)
    = skipn (Z.to_nat (f_pos (fd inst))) (f_data (fd inst)) /\
    rr_packet_ctx r = Some (mkEntry now 0) /\
    eof (rr_inst r) = true /\ closing (rr_inst r) = true.
Proof.
  intros Hc He Ho Hp Hfs Hb.
  set (rest := skipn (Z.to_nat (f_pos (fd inst))) (f_data (fd inst))).
  intros Hfit Hnone Hmax.
  assert (Hrl : Z.of_nat (length rest)
                = file_size inst - f_pos (fd inst)).
  { subst rest. rewrite length_skipn, Hfs. lia. }
  unfold mod_read.
  destruct (0 <? length buffer)%nat eqn:E; [|apply Nat.ltb_ge in E; lia].
  cbn [negb]. rewrite Hc.
  destruct (fill_open inst buffer 0 He Ho (proj1 Hp))
    as (inst1 & Hf & He1 & Hc1 & Hp1 & Ho1 & Hh1).
  rewrite Nat.sub_0_r in Hf, He1. fold rest in Hf, He1.
  rewrite (firstn_all2 rest) in Hf, He1 by exact Hfit.
  rewrite Hf. cbn [Nat.add].
  assert (He1' : eof inst1 = true).
  { rewrite He1. apply orb_true_iff. right. apply Z.eqb_eq. lia. }
  rewrite redo_step. cbn [scan_start Nat.ltb Nat.leb].
  rewrite He1', Hp1.
  assert (Hc2 : forall n,
             closing (with_header_offset inst1
                        (off (header_offset inst1 + Z.of_nat n))) = false)
    by (intros n; cbn; congruence).
  destruct (find_next (store buffer 0 rest) 0 (length rest)) as [k|] eqn:Ef.
  - apply find_next_found in Ef.
    destruct Ef as (i & -> & _ & Hie & Hat & _).
    assert (Hk : (i + 2 = length rest)%nat).
    { destruct (Nat.eq_dec (i + 2) (length rest)) as [Heq|Hne]; [exact Heq|].
      exfalso. apply (Hnone i); [lia|].
      apply (eor_at_store_front buffer rest i); [lia | lia | exact Hat]. }
    rewrite Hk. rewrite Nat.sub_diag.
    destruct (_ <? _) eqn:Em; [apply Z.ltb_lt in Em; lia|].
    destruct (done_label_returns _ (store buffer 0 rest) O (length rest)
                (Some (mkEntry now 0))
                (Some (priorities_at K (Byte.to_nat
                                          (byte_at (store buffer 0 rest) 0))))
                (Hc2 (length rest))) as (r & Hr).
    exists r. split; [exact Hr|].
    apply (accept_keeps K now inst1) in Hr.
    destruct Hr as (-> & -> & -> & -> & _ & _ & -> & _ & _ & _ & _ & ->).
    rewrite He1'. repeat split; try reflexivity.
    apply firstn_store_front. exact Hfit.
  - destruct (_ <? _) eqn:Em; [apply Z.ltb_lt in Em; lia|].
    destruct (done_label_returns _ (store buffer 0 rest) O (length rest)
                (Some (mkEntry now 0))
                (Some (priorities_at K (Byte.to_nat
                                          (byte_at (store buffer 0 rest) 0))))
                (Hc2 (length rest))) as (r & Hr).
    exists r. split; [exact Hr|].
    apply (accept_keeps K now inst1) in Hr.
    destruct Hr as (-> & -> & -> & -> & _ & _ & -> & _ & _ & _ & _ & ->).
    rewrite He1'. repeat split; try reflexivity.
    apply firstn_store_front. exact Hfit.
Qed.

(** X3.  A delimiter split across two reads.  When the bytes left over end
    in a newline and the next byte of the file is a newline, the pair
    is found: [mod_read] returns the leftover bytes and that newline as
    one record, of length [leftover + 1]. *)
Theorem mod_read_joins_a_split_delimiter (now : Z)
        (inst : proto_detail_file_t) (buffer : list byte) (leftover : nat) :
  closing inst = false ->
  eof inst = false ->
  f_open (fd inst) = true ->
  0 <= f_pos (fd inst) ->
  (0 < leftover < length buffer)%nat ->
  byte_at buffer (leftover - 1) = LF ->
  (Z.to_nat (f_pos (fd inst)) < length (f_data (fd inst)))%nat ->
  byte_at (f_data (fd inst)) (Z.to_nat (f_pos (fd inst))) = LF ->
  Z.of_nat (leftover + 1) <= max_packet_size (parent inst) ->
  exists r,
    mod_read K now inst buffer leftover = Returned r /\
    rr_ret r = Z.of_nat (leftover + 1) /\
    firstn leftover (rr_buffer r) = firstn leftover buffer /\
    byte_at (rr_buffer r) leftover = LF /\
    (rr_leftover r + 1
     = length (firstn (length buffer - leftover)
                      (skipn (Z.to_nat (f_pos (fd inst)))
                             (f_data (fd inst)))))%nat /\
    rr_packet_ctx r = Some (mkEntry now 0).
Proof.
  intros Hc He Ho Hp Hl Hlast Hin Hnext Hmax.
  set (got := firstn (length buffer - leftover)
                     (skipn (Z.to_nat (f_pos (fd inst))) (f_data (fd inst)))).
  assert (Hgl : (length got <= length buffer - leftover)%nat)
    by (subst got; rewrite length_firstn; lia).
  assert (Hg0 : (0 < length got)%nat).
  { subst got. rewrite length_firstn, length_skipn. lia. }
  assert (Hgb : byte_at got 0 = LF).
  { subst got. unfold byte_at in *. rewrite nth_firstn.
    destruct (0 <? length buffer - leftover)%nat eqn:E;
      [|apply Nat.ltb_ge in E; lia].
    rewrite nth_skipn. rewrite Nat.add_0_r. exact Hnext. }
  unfold mod_read.
  destruct (leftover <? length buffer)%nat eqn:E; [|apply Nat.ltb_ge in E; lia].
  cbn [negb]. rewrite Hc.
  destruct (fill_open inst buffer leftover He Ho Hp)
    as (inst1 & Hf & _ & Hc1 & Hp1 & Ho1 & Hh1).
  fold got in Hf. rewrite Hf.
  rewrite redo_step. unfold scan_start.
  destruct (0 <? leftover)%nat eqn:E0; [|apply Nat.ltb_ge in E0; lia].
  assert (Hfind : find_next (store buffer leftover got) (leftover - 1)
                            (leftover + length got)
                  = Some (leftover + 1)%nat).
  { replace (leftover + 1)%nat with (leftover - 1 + 2)%nat by lia.
    apply find_next_found_intro; try lia.
    split.
    - rewrite store_byte_at by lia.
      destruct (leftover <=? leftover - 1)%nat eqn:E1;
        [apply Nat.leb_le in E1; lia|]. exact Hlast.
    - replace (S (leftover - 1)) with leftover by lia.
      rewrite store_byte_at by lia.
      rewrite Nat.leb_refl.
      destruct (leftover <? leftover + length got)%nat eqn:E2;
        [|apply Nat.ltb_ge in E2; lia].
      cbn [andb]. rewrite Nat.sub_diag. exact Hgb. }
  rewrite Hfind, Hp1.
  destruct (_ <? _) eqn:Em; [apply Z.ltb_lt in Em; lia|].
  assert (Hc2 : closing (with_header_offset inst1
                  (off (header_offset inst1 + Z.of_nat (leftover + 1)))) = false)
    by (cbn; congruence).
  destruct (done_label_returns _ (store buffer leftover got)
              (leftover + length got - (leftover + 1))%nat (leftover + 1)%nat
              (Some (mkEntry now 0))
              (Some (priorities_at K (Byte.to_nat
                       (byte_at (store buffer leftover got) 0))))
              Hc2) as (r & Hr).
  exists r. split; [exact Hr|].
  apply (accept_keeps K now inst1) in Hr.
  destruct Hr as (-> & -> & -> & -> & _).
  split; [reflexivity|]. split; [|split; [|split; [lia | reflexivity]]].
  - rewrite store_exact by lia. rewrite firstn_app, length_firstn.
    replace (leftover - Nat.min leftover (length buffer))%nat with O by lia.
    cbn [firstn]. rewrite app_nil_r.
    rewrite firstn_firstn. f_equal. lia.
  - rewrite store_byte_at by lia. rewrite Nat.leb_refl.
    destruct (leftover <? leftover + length got)%nat eqn:E2;
      [|apply Nat.ltb_ge in E2; lia].
    cbn [andb]. rewrite Nat.sub_diag. exact Hgb.
Qed.

(** X4.  Entered at eof, [mod_read] does not read: it takes all the bytes
    left over as one record, whatever they hold, leaves nothing over,
    sets [closing], and its one call on the file is the rewind.  The
    record comes with a tracking entry when it is within the maximum,
    and without one when it is not. *)
Theorem mod_read_at_eof_takes_all_leftover (now : Z)
        (inst : proto_detail_file_t) (buffer : list byte) (leftover : nat) :
  closing inst = false ->
  eof inst = true ->
  (0 < leftover < length buffer)%nat ->
  exists r,
    mod_read K now inst buffer leftover = Returned r /\
    rr_ret r = Z.of_nat leftover /\
    rr_leftover r = O /\
    rr_buffer r = buffer /\
    closing (rr_inst r) = true /\
    f_trace (fd (rr_inst r))
    = f_trace (fd inst)
      ++ [SysLseek (off (read_offset inst - 1)) SEEK_SET
                   (read_offset (rr_inst r))] /\
    rr_packet_ctx r
    = (if max_packet_size (parent inst) <? Z.of_nat leftover
       then None else Some (mkEntry now 0)).
Proof.
  intros Hc He Hl. unfold mod_read.
  destruct (leftover <? length buffer)%nat eqn:E; [|apply Nat.ltb_ge in E; lia].
  cbn [negb]. rewrite Hc. unfold fill. rewrite He. cbn [negb].
  destruct (0 <? leftover)%nat eqn:E0; [|apply Nat.ltb_ge in E0; lia].
  rewrite redo_step. unfold scan_start. rewrite E0.
  rewrite find_next_last_byte by lia. rewrite He.
  pose proof (lseek_trace (fd inst) (off (read_offset inst - 1)) SEEK_SET) as Ht.
  destruct (_ <? _).
  - unfold done_label, seek_read_offset. rewrite He.
    destruct (lseek (fd inst) _ SEEK_SET) as [f' ro']. cbn [fst snd] in Ht.
    cbn. rewrite Hc. eexists. split; [reflexivity|]. cbn. auto 10.
  - unfold accept, done_label, seek_read_offset.
    cbn [eof with_header_offset fd read_offset]. rewrite He.
    destruct (lseek (fd inst) _ SEEK_SET) as [f' ro']. cbn [fst snd] in Ht.
    cbn. rewrite Hc. eexists. split; [reflexivity|]. cbn. auto 10.
Qed.

End LastRecord.

(** ** Runs of calls *)

(** What [mod_write] never touches. *)
Lemma mod_write_keeps (inst : proto_detail_file_t) (track : fr_detail_entry_t)
      (buffer : list byte) (w : write_result) :
  mod_write inst track buffer = Returned w ->
  closing (wr_inst w) = closing inst /\ eof (wr_inst w) = eof inst /\
  header_offset (wr_inst w) = header_offset inst /\
  file_size (wr_inst w) = file_size inst /\
  parent (wr_inst w) = parent inst /\
  read_offset (wr_inst w) = read_offset inst.
Proof.
  unfold mod_write. intros H.
  destruct (length buffer <? 1)%nat; [inversion H; subst w; cbn; auto 10|].
  destruct (0 <? outstanding inst); cbn [negb] in H; [|discriminate].
  inversion H; subst w; clear H. cbn [wr_inst].
  destruct (Byte.eqb _ _); [cbn; auto 10|].
  destruct (0 <? done_offset track); [|cbn; auto 10].
  cbn [fd with_outstanding read_offset].
  destruct (lseek (fd inst) _ SEEK_SET) as [f1 r1].
  destruct (write f1 lit_Done4) as [f2 r2].
  destruct (lseek f2 _ SEEK_SET) as [f3 r3]. cbn. auto 10.
Qed.

Section Runs.

Variable K : radius_constants.

Lemma mod_read_when_closing (now : Z) (inst : proto_detail_file_t)
      (buffer : list byte) (leftover : nat) :
  closing inst = true ->
  (leftover < length buffer)%nat ->
  exists r,
    mod_read K now inst buffer leftover = Returned r /\
    rr_ret r = 0 /\ rr_packet_ctx r = None /\
    rr_buffer r = buffer /\ rr_leftover r = leftover /\
    closing (rr_inst r) = true /\
    header_offset (rr_inst r) = header_offset inst /\
    f_trace (fd (rr_inst r))
    = f_trace (fd inst)
      ++ [SysLseek (file_size inst) SEEK_SET (read_offset (rr_inst r))].
Proof.
  intros Hc Hl. unfold mod_read.
  destruct (leftover <? length buffer)%nat eqn:E; [|apply Nat.ltb_ge in E; lia].
  cbn [negb]. rewrite Hc. eexists. split; [reflexivity|].
  cbn [rr_ret rr_packet_ctx rr_buffer rr_leftover rr_inst].
  unfold seek_read_offset.
  pose proof (lseek_trace (fd inst) (file_size inst) SEEK_SET) as Ht.
  destruct (lseek (fd inst) _ SEEK_SET) as [f' ro']. cbn in *. auto 10.
Qed.

(** X11.  Closing is final.  From a closing instance, whatever calls follow,
    the instance stays closing, no tracking entry is handed out any
    more and [header_offset] stays put; and every later [mod_read]
    returns 0 without touching the buffer or [*leftover], its one call
    on the file being the seek to [file_size]. *)
Theorem closing_is_final :
  forall calls inst t inst' t',
    closing inst = true ->
    drive K inst t calls = Returned (inst', t') ->
    closing inst' = true /\ issued t' = issued t /\
    header_offset inst' = header_offset inst /\
    forall now buffer leftover,
      (leftover < length buffer)%nat ->
      exists r,
        mod_read K now inst' buffer leftover = Returned r /\
        rr_ret r = 0 /\ rr_packet_ctx r = None /\
        rr_buffer r = buffer /\ rr_leftover r = leftover /\
        f_trace (fd (rr_inst r))
        = f_trace (fd inst')
          ++ [SysLseek (file_size inst') SEEK_SET (read_offset (rr_inst r))].
Proof.
  induction calls as [|c calls IH]; intros inst t inst' t' Hc H.
  - inversion H; subst inst' t'. repeat split; try assumption.
    intros now buffer leftover Hl.
    destruct (mod_read_when_closing now inst buffer leftover Hc Hl)
      as (r & Hr & H1 & H2 & H3 & H4 & _ & _ & H7).
    exists r. auto 10.
  - destruct c as [now buffer leftover|track buffer]; cbn [drive] in H.
    + destruct (mod_read K now inst buffer leftover) as [r| |] eqn:E;
        try discriminate.
      pose proof E as E'. apply mod_read_exits in E'. destruct E' as [Hl _].
      destruct (mod_read_when_closing now inst buffer leftover Hc Hl)
        as (r' & Hr & _ & H2 & _ & _ & H5 & H6 & _).
      rewrite E in Hr. inversion Hr; subst r'. rewrite H2 in H.
      apply IH in H; [|exact H5].
      destruct H as (Ha & Hb & Hd & He). rewrite H6 in Hd. auto.
    + destruct (mod_write inst track buffer) as [w| |] eqn:E;
        try discriminate.
      apply mod_write_keeps in E. destruct E as (Hc' & _ & Hh' & _).
      apply IH in H; [|congruence].
      destruct H as (Ha & Hb & Hd & He).
      split; [exact Ha|]. split.
      * rewrite Hb. destruct (0 <=? wr_ret w); reflexivity.
      * split; [congruence | exact He].
Qed.

(** What [mod_read] hands out: an entry stamped with the time of the
    call and offset 0, and a counter one above the one it found. *)
Lemma mod_read_entry (now : Z) (inst : proto_detail_file_t)
      (buffer : list byte) (leftover : nat) (r : read_result)
      (t : fr_detail_entry_t) :
  mod_read K now inst buffer leftover = Returned r ->
  rr_packet_ctx r = Some t ->
  t = mkEntry now 0 /\
  outstanding (rr_inst r) = int32 (outstanding inst + 1).
Proof.
  intros H Ht.
  destruct (mod_read_accepts K now inst buffer leftover r t H Ht)
    as (_ & inst1 & buffer1 & end1 & Hf & buffer' & leftover' & packet_len
        & _ & Ha).
  apply fill_outstanding in Hf. apply accept_keeps in Ha.
  destruct Ha as (_ & _ & _ & Hc & _ & _ & _ & _ & Ho & _).
  split; [congruence|]. congruence.
Qed.

(** X12.  Read, then acknowledge.  Acknowledging an entry that [mod_read]
    has just handed out, with a non-empty reply, returns the length of
    the reply, puts the counter back where it was before the read, and
    makes no call on the file: no record read by this code is ever
    marked "Done". *)
Theorem acknowledging_a_read_restores_the_counter (now : Z)
        (inst : proto_detail_file_t) (buffer : list byte) (leftover : nat)
        (r : read_result) (t : fr_detail_entry_t) (reply : list byte) :
  0 <= outstanding inst < 2 ^ 31 - 1 ->
  (1 <= length reply)%nat ->
  mod_read K now inst buffer leftover = Returned r ->
  rr_packet_ctx r = Some t ->
  exists w,
    mod_write (rr_inst r) t reply = Returned w /\
    wr_ret w = Z.of_nat (length reply) /\
    outstanding (wr_inst w) = outstanding inst /\
    fd (wr_inst w) = fd (rr_inst r).
Proof.
  intros Ho Hl H Ht.
  destruct (mod_read_entry now inst buffer leftover r t H Ht) as (-> & Hout).
  rewrite int32_small in Hout by lia.
  unfold mod_write.
  destruct (length reply <? 1)%nat eqn:E; [apply Nat.ltb_lt in E; lia|].
  destruct (0 <? outstanding (rr_inst r)) eqn:Eo;
    [|apply Z.ltb_ge in Eo; lia].
  cbn [negb done_offset Z.ltb Z.compare].
  eexists. split; [reflexivity|]. cbn [wr_ret wr_inst].
  split; [reflexivity|].
  destruct (Byte.eqb (byte_at reply 0) x00); cbn;
    (split; [rewrite Hout, int32_small by lia; lia | reflexivity]).
Qed.

(** X17.  The ids [mod_decode] stamps are the counter.  After a read that
    hands out an entry both ids are the counter before the read plus
    one; so a record read after the previous one was acknowledged is
    stamped with the same ids as that one. *)
Theorem mod_decode_reuses_ids (now1 now2 : Z) (inst : proto_detail_file_t)
        (buffer1 buffer2 reply : list byte) (leftover1 leftover2 : nat)
        (r1 r2 : read_result) (t1 t2 : fr_detail_entry_t) (w : write_result) :
  0 <= outstanding inst < 2 ^ 31 - 1 ->
  mod_read K now1 inst buffer1 leftover1 = Returned r1 ->
  rr_packet_ctx r1 = Some t1 ->
  mod_write (rr_inst r1) t1 reply = Returned w ->
  0 <= wr_ret w ->
  mod_read K now2 (wr_inst w) buffer2 leftover2 = Returned r2 ->
  rr_packet_ctx r2 = Some t2 ->
  mod_decode (rr_inst r1)
  = (0, mkIds (outstanding inst + 1) (outstanding inst + 1)) /\
  mod_decode (rr_inst r2) = mod_decode (rr_inst r1).
Proof.
  intros Ho H1 Ht1 Hw Hret H2 Ht2.
  destruct (mod_read_entry now1 inst buffer1 leftover1 r1 t1 H1 Ht1)
    as (_ & Ho1).
  rewrite int32_small in Ho1 by lia.
  destruct (mod_read_entry now2 (wr_inst w) buffer2 leftover2 r2 t2 H2 Ht2)
    as (_ & Ho2).
  apply mod_write_outstanding in Hw.
  destruct Hw as [(Hm & _)|(_ & How)]; [lia|].
  rewrite Ho1 in How. rewrite int32_small in How by lia.
  rewrite How in Ho2. rewrite int32_small in Ho2 by lia.
  unfold mod_decode. rewrite Ho1, Ho2.
  split; [reflexivity|]. repeat f_equal; lia.
Qed.

End Runs.

(** ** The acknowledger and the file *)

Lemma write_closed (f : file) (src : list byte) :
  f_open f = false ->
  f_data (fst (write f src)) = f_data f /\ f_open (fst (write f src)) = false.
Proof.
  intros H. unfold write. rewrite H. cbn. auto.
Qed.

Lemma write_data (f : file) (src : list byte) :
  f_data (fst (write f src))
  = if f_open f then overwrite (f_data f) (Z.to_nat (f_pos f)) src
    else f_data f.
Proof.
  unfold write. destruct (f_open f); reflexivity.
Qed.

Lemma write_open (f : file) (src : list byte) :
  f_open (fst (write f src)) = f_open f.
Proof.
  unfold write. destruct (f_open f) eqn:E; cbn; auto.
Qed.

Lemma lseek_pos (f : file) (offset : Z) :
  f_pos (fst (lseek f offset SEEK_SET))
  = if f_open f && (0 <=? offset) then offset else f_pos f.
Proof.
  unfold lseek. destruct (f_open f && (0 <=? offset)); reflexivity.
Qed.

(** On a closed descriptor [mod_write] leaves the file's bytes alone. *)
Lemma mod_write_closed (inst : proto_detail_file_t)
      (track : fr_detail_entry_t) (buffer : list byte) (w : write_result) :
  f_open (fd inst) = false ->
  mod_write inst track buffer = Returned w ->
  f_data (fd (wr_inst w)) = f_data (fd inst).
Proof.
  unfold mod_write. intros Hcl H.
  destruct (length buffer <? 1)%nat; [inversion H; subst w; reflexivity|].
  destruct (0 <? outstanding inst); cbn [negb] in H; [|discriminate].
  inversion H; subst w; clear H. cbn [wr_inst].
  destruct (Byte.eqb (byte_at buffer 0) x00); [reflexivity|].
  destruct (0 <? done_offset track); [|reflexivity].
  cbn [fd with_outstanding read_offset].
  pose proof (lseek_data (fd inst) (done_offset track) SEEK_SET) as D1.
  pose proof (lseek_open (fd inst) (done_offset track) SEEK_SET) as O1.
  destruct (lseek (fd inst) (done_offset track) SEEK_SET) as [f1 r1].
  cbn [fst] in D1, O1. rewrite Hcl in O1.
  pose proof (write_closed f1 lit_Done4 O1) as (D2 & _).
  destruct (write f1 lit_Done4) as [f2 r2].
  pose proof (lseek_data f2 (read_offset inst) SEEK_SET) as D3.
  destruct (lseek f2 (read_offset inst) SEEK_SET) as [f3 r3].
  cbn [fst] in *. cbn [fd with_fd]. congruence.
Qed.

(** Writing inside the file: the bytes before, [src], the bytes after. *)
Lemma overwrite_inside (data : list byte) (at_ : nat) (src : list byte) :
  (at_ + length src <= length data)%nat ->
  overwrite data at_ src
  = firstn at_ data ++ src ++ skipn (at_ + length src) data.
Proof.
  intros H. unfold overwrite.
  replace (at_ - length data)%nat with O by lia.
  cbn [repeat]. rewrite app_nil_r. reflexivity.
Qed.

Lemma overwrite_inside_outside (data : list byte) (at_ : nat) (src : list byte) :
  (at_ + length src <= length data)%nat ->
  length (overwrite data at_ src) = length data /\
  firstn at_ (overwrite data at_ src) = firstn at_ data /\
  skipn (at_ + length src) (overwrite data at_ src)
  = skipn (at_ + length src) data.
Proof.
  intros H. rewrite overwrite_inside by exact H.
  assert (Hl : length (firstn at_ data) = at_)
    by (rewrite length_firstn; lia).
  split; [|split].
  - rewrite !length_app, Hl, length_skipn. lia.
  - rewrite firstn_app, Hl, Nat.sub_diag. cbn [firstn].
    rewrite app_nil_r, firstn_firstn. f_equal. lia.
  - rewrite skipn_app, Hl.
    rewrite (skipn_all2 (firstn at_ data)) by lia. cbn [app].
    replace (at_ + length src - at_)%nat with (length src) by lia.
    rewrite skipn_app, skipn_all, Nat.sub_diag. reflexivity.
Qed.

(** X13.  [mod_write] changes nothing of the file but the four bytes at
    [done_offset]: when those four bytes lie inside the file, the file
    keeps its length, the bytes before [done_offset] and the bytes from
    [done_offset + 4] on are the same lists as before; a leading zero
    byte in the buffer (Do-Not-Respond), a closed descriptor or a
    [done_offset] that is not positive leaves the whole file as it was;
    and it never closes the descriptor. *)
Theorem mod_write_touches_only_the_marker (inst : proto_detail_file_t)
        (track : fr_detail_entry_t) (buffer : list byte) (w : write_result) :
  mod_write inst track buffer = Returned w ->
  ((Z.to_nat (done_offset track) + 4 <= length (f_data (fd inst)))%nat ->
   length (f_data (fd (wr_inst w))) = length (f_data (fd inst)) /\
   firstn (Z.to_nat (done_offset track)) (f_data (fd (wr_inst w)))
   = firstn (Z.to_nat (done_offset track)) (f_data (fd inst)) /\
   skipn (Z.to_nat (done_offset track) + 4) (f_data (fd (wr_inst w)))
   = skipn (Z.to_nat (done_offset track) + 4) (f_data (fd inst))) /\
  (byte_at buffer 0 = x00 \/ f_open (fd inst) = false \/
   done_offset track <= 0 ->
   f_data (fd (wr_inst w)) = f_data (fd inst)) /\
  f_open (fd (wr_inst w)) = f_open (fd inst).
Proof.
  unfold mod_write. intros H.
  destruct (length buffer <? 1)%nat; [inversion H; subst w; cbn; auto|].
  destruct (0 <? outstanding inst); cbn [negb] in H; [|discriminate].
  inversion H; subst w; clear H. cbn [wr_inst].
  destruct (Byte.eqb (byte_at buffer 0) x00) eqn:Eb; [cbn; auto|].
  apply byte_eqb_false in Eb.
  destruct (0 <? done_offset track) eqn:Ed; [|cbn; auto].
  apply Z.ltb_lt in Ed.
  cbn [fd with_outstanding read_offset].
  pose proof (lseek_data (fd inst) (done_offset track) SEEK_SET) as D1.
  pose proof (lseek_open (fd inst) (done_offset track) SEEK_SET) as O1.
  pose proof (lseek_pos (fd inst) (done_offset track)) as P1.
  destruct (lseek (fd inst) (done_offset track) SEEK_SET) as [f1 r1].
  pose proof (write_data f1 lit_Done4) as D2.
  pose proof (write_open f1 lit_Done4) as O2.
  destruct (write f1 lit_Done4) as [f2 r2].
  pose proof (lseek_data f2 (read_offset inst) SEEK_SET) as D3.
  pose proof (lseek_open f2 (read_offset inst) SEEK_SET) as O3.
  destruct (lseek f2 (read_offset inst) SEEK_SET) as [f3 r3].
  cbn [fst] in *. cbn [fd with_fd].
  rewrite D3, D2, O1, D1.
  split; [|split].
  - intros Hin. destruct (f_open (fd inst)) eqn:Ho; [|auto].
    rewrite P1. destruct (0 <=? done_offset track) eqn:E0;
      [|apply Z.leb_gt in E0; lia].
    cbn [andb].
    apply (overwrite_inside_outside (f_data (fd inst))
             (Z.to_nat (done_offset track)) lit_Done4 Hin).
  - intros [Hz|[Hcl|Hd]]; [contradiction | rewrite Hcl; reflexivity | lia].
  - congruence.
Qed.

(** X15.  After [mod_detach] the descriptor is closed for good: a read on a
    stream that was neither closing nor at eof returns -1 and leaves the
    buffer, [*leftover] and the counters alone, and no acknowledgement
    changes a byte of the file. *)
Theorem after_mod_detach (K : radius_constants) (inst : proto_detail_file_t) :
  snd (mod_detach inst) = 0 /\
  f_open (fd (fst (mod_detach inst))) = false /\
  (forall now buffer leftover,
      closing inst = false -> eof inst = false ->
      (leftover < length buffer)%nat ->
      exists r,
        mod_read K now (fst (mod_detach inst)) buffer leftover = Returned r /\
        rr_ret r = -1 /\ rr_buffer r = buffer /\ rr_leftover r = leftover /\
        rr_packet_ctx r = None /\
        outstanding (rr_inst r) = outstanding inst /\
        header_offset (rr_inst r) = header_offset inst) /\
  (forall track buffer w,
      mod_write (fst (mod_detach inst)) track buffer = Returned w ->
      f_data (fd (wr_inst w)) = f_data (fd inst)).
Proof.
  assert (Hd : f_open (fd (fst (mod_detach inst))) = false /\
               f_data (fd (fst (mod_detach inst))) = f_data (fd inst) /\
               snd (mod_detach inst) = 0).
  { unfold mod_detach, close. destruct (f_open (fd inst)) eqn:Ho; cbn; auto. }
  destruct Hd as (Hcl & Hdata & Hret).
  split; [exact Hret|]. split; [exact Hcl|]. split.
  - intros now buffer leftover Hc He Hl.
    assert (Hc' : closing (fst (mod_detach inst)) = false).
    { unfold mod_detach. destruct (close (fd inst)). exact Hc. }
    assert (He' : eof (fst (mod_detach inst)) = false).
    { unfold mod_detach. destruct (close (fd inst)). exact He. }
    assert (Ho' : outstanding (fst (mod_detach inst)) = outstanding inst).
    { unfold mod_detach. destruct (close (fd inst)). reflexivity. }
    assert (Hh' : header_offset (fst (mod_detach inst)) = header_offset inst).
    { unfold mod_detach. destruct (close (fd inst)). reflexivity. }
    unfold mod_read.
    destruct (leftover <? length buffer)%nat eqn:E;
      [|apply Nat.ltb_ge in E; lia].
    cbn [negb]. rewrite Hc'. unfold fill. rewrite He'. cbn [negb].
    unfold read. rewrite Hcl. cbn [Z.ltb Z.compare].
    eexists. split; [reflexivity|]. cbn. auto 10.
  - intros track buffer w Hw.
    rewrite <- Hdata. eapply mod_write_closed; eauto.
Qed.

(** ** Opening the file *)

(** X16.  [mod_open] sets the descriptor, [file_size] and the debug name and
    nothing else.  On a missing file it returns -1 with an invalid
    descriptor, and a read then returns -1; when [fstat] fails it
    returns -1 and leaves the descriptor open; otherwise it returns 0
    with the cursor at 0 and [file_size] the length of the file (from
    an all-zero instance: the instance [fresh]), and a second
    [mod_open] stops at the assertion on [name]. *)
Theorem mod_open_outcomes (K : radius_constants) (fs : filesystem)
        (inst : proto_detail_file_t) (names : detail_names) :
  name names = None ->
  exists o,
    mod_open fs inst names = Returned o /\
    eof (or_inst o) = eof inst /\ closing (or_inst o) = closing inst /\
    outstanding (or_inst o) = outstanding inst /\
    header_offset (or_inst o) = header_offset inst /\
    read_offset (or_inst o) = read_offset inst /\
    parent (or_inst o) = parent inst /\
    match fs (filename_work names) with
    | None =>
        or_ret o = -1 /\ f_open (fd (or_inst o)) = false /\
        file_size (or_inst o) = file_size inst /\
        (closing inst = false -> eof inst = false ->
         forall now buffer leftover,
           (leftover < length buffer)%nat ->
           exists r,
             mod_read K now (or_inst o) buffer leftover = Returned r /\
             rr_ret r = -1)
    | Some e =>
        fd (or_inst o) = opened (e_data e) /\
        if e_stat_ok e
        then or_ret o = 0 /\
             file_size (or_inst o) = Z.of_nat (length (e_data e)) /\
             (forall max_size, inst = zeroed max_size ->
                               or_inst o = fresh max_size (e_data e)) /\
             mod_open fs (or_inst o) (or_names o) = Aborted
        else or_ret o = -1 /\ file_size (or_inst o) = file_size inst
    end.
Proof.
  intros Hn. unfold mod_open.
  destruct (fs (filename_work names)) as [e|] eqn:Ef;
    cbn [open_rdwr fd with_fd f_open negb fstat].
  - destruct (e_stat_ok e) eqn:Es.
    + rewrite Hn. eexists. split; [reflexivity|].
      cbn [or_inst or_ret or_names filename_work name].
      repeat split; try reflexivity.
      * intros max_size ->. reflexivity.
      * rewrite Ef. cbn [open_rdwr fd with_fd f_open negb fstat
                         with_file_size].
        rewrite Es. reflexivity.
    + eexists. split; [reflexivity|]. cbn. auto 10.
  - eexists. split; [reflexivity|].
    cbn [or_inst or_ret]. repeat split; try reflexivity.
    intros Hc He now buffer leftover Hl. unfold mod_read.
    destruct (leftover <? length buffer)%nat eqn:E;
      [|apply Nat.ltb_ge in E; lia].
    cbn [negb closing with_fd]. rewrite Hc. unfold fill.
    cbn [eof with_fd]. rewrite He. cbn. eexists. split; reflexivity.
Qed.

(** ** Skipping an oversize record *)

Lemma byte_at_memmove_front (buffer : list byte) (from n j : nat) :
  (from + n <= length buffer)%nat -> (j < n)%nat ->
  byte_at (memmove_front buffer from n) j = byte_at buffer (from + j).
Proof.
  intros H Hj. unfold memmove_front.
  assert (Hs : length (firstn n (skipn from buffer)) = n)
    by (rewrite length_firstn, length_skipn; lia).
  rewrite store_byte_at by (rewrite Hs; lia).
  rewrite Hs. cbn [Nat.leb andb Nat.add].
  destruct (j <? n)%nat eqn:E; [|apply Nat.ltb_ge in E; lia].
  unfold byte_at. rewrite Nat.sub_0_r, nth_firstn, E, nth_skipn. reflexivity.
Qed.

Lemma byte_at_store_front (buffer src : list byte) (j : nat) :
  (length src <= length buffer)%nat -> (j < length src)%nat ->
  byte_at (store buffer 0 src) j = byte_at src j.
Proof.
  intros H Hj. rewrite store_byte_at by (cbn; lia).
  cbn [Nat.leb andb Nat.add].
  destruct (j <? length src)%nat eqn:E; [|apply Nat.ltb_ge in E; lia].
  rewrite Nat.sub_0_r. reflexivity.
Qed.

Section Skipping.

Variable K : radius_constants.

(** X5.  An oversize record with its terminator is dropped and the scan goes
    on behind it.  When the bytes read start with a record that ends
    with the "\n\n" at index [n] and is larger than the maximum, and the
    next "\n\n" behind it is at index [m] with the record between them
    within the maximum, [mod_read] returns that second record, moved to
    the front of the buffer, with the bytes behind it as leftover. *)
Theorem mod_read_skips_an_oversize_record (now : Z)
        (inst : proto_detail_file_t) (buffer : list byte) (n m : nat) :
  closing inst = false ->
  eof inst = false ->
  f_open (fd inst) = true ->
  0 <= f_pos (fd inst) ->
  eor_at (firstn (length buffer)
                 (skipn (Z.to_nat (f_pos (fd inst))) (f_data (fd inst)))) n ->
  (forall j, (j < n)%nat ->
     ~ eor_at (firstn (length buffer)
                      (skipn (Z.to_nat (f_pos (fd inst))) (f_data (fd inst))))
              j) ->
  max_packet_size (parent inst) < Z.of_nat (n + 2) ->
  (n + 2 <= m)%nat ->
  (m + 2 <= length (firstn (length buffer)
                           (skipn (Z.to_nat (f_pos (fd inst)))
                                  (f_data (fd inst)))))%nat ->
  eor_at (firstn (length buffer)
                 (skipn (Z.to_nat (f_pos (fd inst))) (f_data (fd inst)))) m ->
  (forall j, (n + 2 <= j < m)%nat ->
     ~ eor_at (firstn (length buffer)
                      (skipn (Z.to_nat (f_pos (fd inst))) (f_data (fd inst))))
              j) ->
  Z.of_nat (m - n) <= max_packet_size (parent inst) ->
  exists r,
    mod_read K now inst buffer 0 = Returned r /\
    rr_ret r = Z.of_nat (m - n) /\
    firstn (m - n) (rr_buffer r)
    = firstn (m - n)
             (skipn (n + 2)
                    (skipn (Z.to_nat (f_pos (fd inst))) (f_data (fd inst)))) /\
    rr_leftover r
    = (length (firstn (length buffer)
                      (skipn (Z.to_nat (f_pos (fd inst))) (f_data (fd inst))))
       - (m + 2))%nat /\
    rr_packet_ctx r = Some (mkEntry now 0) /\
    outstanding (rr_inst r) = int32 (outstanding inst + 1).
Proof.
  intros Hc He Ho Hp.
  set (got := firstn (length buffer)
                     (skipn (Z.to_nat (f_pos (fd inst))) (f_data (fd inst)))).
  intros Hat1 Hmin1 Hbig Hnm Hm Hat2 Hmin2 Hmax.
  assert (Hgl : (length got <= length buffer)%nat)
    by (subst got; rewrite length_firstn; lia).
  unfold mod_read.
  destruct (0 <? length buffer)%nat eqn:E; [|apply Nat.ltb_ge in E; lia].
  cbn [negb]. rewrite Hc.
  destruct (fill_open inst buffer 0 He Ho Hp)
    as (inst1 & Hf & _ & Hc1 & Hp1 & Ho1 & Hh1).
  rewrite Nat.sub_0_r in Hf. fold got in Hf. rewrite Hf. cbn [Nat.add].
  set (buffer1 := store buffer 0 got).
  assert (Hb1 : length buffer1 = length buffer)
    by (subst buffer1; apply store_length; lia).
  assert (Hbyte : forall j, (j < length got)%nat ->
                            byte_at buffer1 j = byte_at got j)
    by (intros j Hj; apply byte_at_store_front; lia).
  assert (Heor : forall j, (S j < length got)%nat ->
                           eor_at buffer1 j <-> eor_at got j).
  { intros j Hj. unfold eor_at. rewrite !Hbyte by lia. reflexivity. }
  rewrite redo_step. cbn [scan_start Nat.ltb Nat.leb].
  assert (Hfind1 : find_next buffer1 0 (length got) = Some (n + 2)%nat).
  { apply find_next_found_intro; try lia.
    - apply Heor; [lia | exact Hat1].
    - intros j Hj Hc'. apply (Hmin1 j); [lia|]. apply Heor; [lia | exact Hc']. }
  rewrite Hfind1, Hp1.
  destruct (_ <? _) eqn:Em; [|apply Z.ltb_ge in Em; lia]. clear Em.
  set (rest := (length got - (n + 2))%nat).
  set (moved := memmove_front buffer1 (n + 2) rest).
  assert (Hmb : forall j, (j < rest)%nat ->
                          byte_at moved j = byte_at got (n + 2 + j)).
  { intros j Hj. subst moved. rewrite byte_at_memmove_front by (subst rest; lia).
    apply Hbyte. subst rest. lia. }
  assert (Hmeor : forall j, (S j < rest)%nat ->
                            eor_at moved j <-> eor_at got (n + 2 + j)).
  { intros j Hj. unfold eor_at. rewrite !Hmb by lia.
    replace (n + 2 + S j)%nat with (S (n + 2 + j)) by lia. reflexivity. }
  destruct (length got) as [|fuel] eqn:Elen; [lia|].
  rewrite redo_step. cbn [scan_start Nat.ltb Nat.leb].
  assert (Hfind2 : find_next moved 0 rest = Some (m - n)%nat).
  { replace (m - n)%nat with (m - (n + 2) + 2)%nat by lia.
    apply find_next_found_intro; try (subst rest; lia).
    - apply Hmeor; [subst rest; lia|].
      replace (n + 2 + (m - (n + 2)))%nat with m by lia. exact Hat2.
    - intros j Hj Hc'. apply (Hmin2 (n + 2 + j)%nat); [lia|].
      apply Hmeor; [subst rest; lia | exact Hc']. }
  rewrite Hfind2, Hp1.
  destruct (_ <? _) eqn:Em; [apply Z.ltb_lt in Em; lia|].
  assert (Hc2 : closing (with_header_offset inst1
                  (off (header_offset inst1 + Z.of_nat (m - n)))) = false)
    by (cbn; congruence).
  destruct (done_label_returns _ moved (rest - (m - n))%nat (m - n)%nat
              (Some (mkEntry now 0))
              (Some (priorities_at K (Byte.to_nat (byte_at moved 0))))
              Hc2) as (r & Hr).
  exists r. split; [exact Hr|].
  apply (accept_keeps K now inst1) in Hr.
  destruct Hr as (-> & -> & -> & -> & _ & _ & _ & _ & -> & _).
  split; [reflexivity|]. split; [|split; [subst rest; lia|]].
  - subst moved. unfold memmove_front.
    set (src := firstn rest (skipn (n + 2) buffer1)).
    assert (Hsl : length src = rest).
    { subst src. rewrite length_firstn, length_skipn. subst rest. lia. }
    transitivity (firstn (m - n) (firstn (length src) (store buffer1 0 src))).
    { rewrite firstn_firstn. f_equal. subst rest. lia. }
    rewrite firstn_store_front by lia.
    subst src. rewrite firstn_firstn.
    replace (Nat.min (m - n) rest) with (m - n)%nat by (subst rest; lia).
    subst buffer1. rewrite store_exact by (cbn; lia).
    cbn [firstn app Nat.add].
    rewrite skipn_app, firstn_app, length_skipn.
    replace (m - n - (length got - (n + 2)))%nat with O by lia.
    cbn [firstn]. rewrite app_nil_r.
    subst got. rewrite skipn_firstn_comm, firstn_firstn. f_equal. lia.
  - split; [reflexivity | congruence].
Qed.

End Skipping.

(** * Examples for the further properties *)

(** No "\n\n" starts at any of the first [k] indices of a given buffer. *)
Tactic Notation "no_eor_below" integer(k) :=
  let j := fresh "j" in
  let Hj := fresh "Hj" in
  let H1 := fresh "H1" in
  let H2 := fresh "H2" in
  intros j Hj [H1 H2];
  do k (destruct j as [|j];
        [vm_compute in H1, H2; first [discriminate H1 | discriminate H2]|]);
  simpl in Hj; lia.

(** X7, example.  [mod_read_keeps_the_file] on the first read of "ab\n\ncd\n\n" into 4
    bytes. *)
Lemma mod_read_keeps_the_file_example :
  exists r,
    mod_read radius 7 (fresh 1024 ab_cd) (zeros 4) 0 = Returned r /\
    rr_ret r = 4 /\
    f_data (fd (rr_inst r)) = f_data (fd (fresh 1024 ab_cd)) /\
    f_open (fd (rr_inst r)) = f_open (fd (fresh 1024 ab_cd)) /\
    file_size (rr_inst r) = file_size (fresh 1024 ab_cd) /\
    parent (rr_inst r) = parent (fresh 1024 ab_cd) /\
    (eof (fresh 1024 ab_cd) = true -> eof (rr_inst r) = true).
Proof.
  eexists. split; [vm_compute; reflexivity|]. split; [reflexivity|].
  apply (mod_read_keeps_the_file radius 7 (fresh 1024 ab_cd) (zeros 4) 0).
  vm_compute. reflexivity.
Defined.

(** X8, example.  [mod_read_stays_in_the_buffer] on a read of "ab\n\ncd\n\n" into 6
    bytes: a record of 4 and 2 bytes left over. *)
Lemma mod_read_stays_in_the_buffer_example :
  exists r,
    mod_read radius 7 (fresh 1024 ab_cd) (zeros 6) 0 = Returned r /\
    rr_ret r = 4 /\ rr_leftover r = 2%nat /\
    length (rr_buffer r) = length (zeros 6) /\
    -1 <= rr_ret r /\
    rr_ret r + Z.of_nat (rr_leftover r) <= Z.of_nat (length (zeros 6)).
Proof.
  eexists. split; [vm_compute; reflexivity|].
  split; [reflexivity|]. split; [reflexivity|].
  apply (mod_read_stays_in_the_buffer radius 7 (fresh 1024 ab_cd) (zeros 6) 0).
  vm_compute. reflexivity.
Defined.

(** X9, example.  [mod_read_header_offset] on the same read: the entry is stamped 7
    and [header_offset] goes from 0 to 4. *)
Lemma mod_read_header_offset_example :
  exists r,
    mod_read radius 7 (fresh 1024 ab_cd) (zeros 6) 0 = Returned r /\
    rr_packet_ctx r = Some (mkEntry 7 0) /\
    header_offset (rr_inst r) = 4 /\
    match rr_packet_ctx r with
    | Some t =>
        header_offset (rr_inst r)
        = off (header_offset (fresh 1024 ab_cd) + rr_ret r) /\
        timestamp t = 7
    | None => header_offset (rr_inst r) = header_offset (fresh 1024 ab_cd)
    end.
Proof.
  eexists. split; [vm_compute; reflexivity|].
  split; [reflexivity|]. split; [reflexivity|].
  apply (mod_read_header_offset radius 7 (fresh 1024 ab_cd) (zeros 6) 0).
  vm_compute. reflexivity.
Defined.

(** X10, example.  [mod_read_counter] on the same read: the counter goes from 0 to 1. *)
Lemma mod_read_counter_example :
  exists r,
    mod_read radius 7 (fresh 1024 ab_cd) (zeros 6) 0 = Returned r /\
    outstanding (rr_inst r) = 1 /\
    outstanding (rr_inst r)
    = if match rr_packet_ctx r with Some _ => true | None => false end
         || (0 <? rr_ret r)
      then int32 (outstanding (fresh 1024 ab_cd) + 1)
      else outstanding (fresh 1024 ab_cd).
Proof.
  eexists. split; [vm_compute; reflexivity|]. split; [reflexivity|].
  apply (mod_read_counter radius 7 (fresh 1024 ab_cd) (zeros 6) 0).
  - vm_compute. discriminate.
  - vm_compute. reflexivity.
Defined.

(** X6, example.  [mod_read_entry_within_maximum] on the same read. *)
Lemma mod_read_entry_within_maximum_example :
  exists r t,
    mod_read radius 7 (fresh 1024 ab_cd) (zeros 6) 0 = Returned r /\
    rr_packet_ctx r = Some t /\
    rr_ret r <= max_packet_size (parent (rr_inst r)).
Proof.
  eexists. eexists. split; [vm_compute; reflexivity|].
  split; [reflexivity|].
  eapply (mod_read_entry_within_maximum radius 7 (fresh 1024 ab_cd)
                                        (zeros 6) 0).
  - vm_compute. reflexivity.
  - reflexivity.
Defined.

(** X1, example.  [mod_read_first_record] on "ab\n\ncd\n\n" read into 16 bytes: the
    first "\n\n" is at index 2, the record "ab\n\n" is returned and the
    four bytes behind it are left over. *)
Lemma mod_read_first_record_example :
  exists r,
    mod_read radius 7 (fresh 1024 ab_cd) (zeros 16) 0 = Returned r /\
    rr_ret r = 4 /\ rr_leftover r = 4%nat /\
    firstn 4 (rr_buffer r) = ab_record /\
    rr_packet_ctx r = Some (mkEntry 7 0) /\
    header_offset (rr_inst r) = 4 /\
    outstanding (rr_inst r) = 1.
Proof.
  apply (mod_read_first_record radius 7 (fresh 1024 ab_cd) (zeros 16) 2).
  - reflexivity.
  - reflexivity.
  - reflexivity.
  - vm_compute. discriminate.
  - vm_compute. lia.
  - split; reflexivity.
  - no_eor_below 2.
  - vm_compute. discriminate.
Defined.

(** X2, example.  [mod_read_last_record] on the one-record file "ab\n\n". *)
Lemma mod_read_last_record_example :
  exists r,
    mod_read radius 7 (fresh 1024 ab_record) (zeros 16) 0 = Returned r /\
    rr_ret r = 4 /\ rr_leftover r = O /\
    firstn 4 (rr_buffer r) = ab_record /\
    rr_packet_ctx r = Some (mkEntry 7 0) /\
    eof (rr_inst r) = true /\ closing (rr_inst r) = true.
Proof.
  apply (mod_read_last_record radius 7 (fresh 1024 ab_record) (zeros 16)).
  - reflexivity.
  - reflexivity.
  - reflexivity.
  - vm_compute. split; discriminate.
  - reflexivity.
  - vm_compute. lia.
  - vm_compute. lia.
  - intros j Hj [H1 H2].
    do 2 (destruct j as [|j];
          [vm_compute in H1, H2; first [discriminate H1 | discriminate H2]|]).
    simpl in Hj. lia.
  - vm_compute. discriminate.
Defined.

(** X3, example.  [mod_read_joins_a_split_delimiter]: "ab\n" is left over, the file
    goes on with "\ncd\n\n", and the record "ab\n\n" is returned. *)
Lemma mod_read_joins_a_split_delimiter_example :
  exists r,
    mod_read radius 7 three_read buffer_ab_nl 3 = Returned r /\
    rr_ret r = 4 /\
    firstn 3 (rr_buffer r) = firstn 3 buffer_ab_nl /\
    byte_at (rr_buffer r) 3 = LF /\
    (rr_leftover r + 1 = 5)%nat /\
    rr_packet_ctx r = Some (mkEntry 7 0).
Proof.
  apply (mod_read_joins_a_split_delimiter radius 7 three_read buffer_ab_nl 3).
  - reflexivity.
  - reflexivity.
  - reflexivity.
  - vm_compute. discriminate.
  - vm_compute. lia.
  - reflexivity.
  - vm_compute. lia.
  - reflexivity.
  - vm_compute. discriminate.
Defined.

(** X4, example.  [mod_read_at_eof_takes_all_leftover]: at eof with "cd\n\n" left
    over, the four bytes are returned and the stream is closing. *)
Lemma mod_read_at_eof_takes_all_leftover_example :
  exists r,
    mod_read radius 7 at_eof buffer_cd 4 = Returned r /\
    rr_ret r = 4 /\ rr_leftover r = O /\ rr_buffer r = buffer_cd /\
    closing (rr_inst r) = true /\
    f_trace (fd (rr_inst r))
    = f_trace (fd at_eof)
      ++ [SysLseek (off (read_offset at_eof - 1)) SEEK_SET
                   (read_offset (rr_inst r))] /\
    rr_packet_ctx r = Some (mkEntry 7 0).
Proof.
  apply (mod_read_at_eof_takes_all_leftover radius 7 at_eof buffer_cd 4).
  - reflexivity.
  - reflexivity.
  - vm_compute. lia.
Defined.

(** X11, example.  [closing_is_final] from the closing instance [after_read]: a read
    and an acknowledgement later it is still closing, and reads return
    0. *)
Lemma closing_is_final_example :
  exists inst' t',
    drive radius after_read (mkTally 1 0)
          [CallRead 8 (zeros 8) 0; CallWrite entry_at_3 [x01]]
    = Returned (inst', t') /\
    closing inst' = true /\ issued t' = 1 /\
    header_offset inst' = header_offset after_read /\
    forall now buffer leftover,
      (leftover < length buffer)%nat ->
      exists r,
        mod_read radius now inst' buffer leftover = Returned r /\
        rr_ret r = 0 /\ rr_packet_ctx r = None /\
        rr_buffer r = buffer /\ rr_leftover r = leftover /\
        f_trace (fd (rr_inst r))
        = f_trace (fd inst')
          ++ [SysLseek (file_size inst') SEEK_SET (read_offset (rr_inst r))].
Proof.
  eexists. eexists. split; [vm_compute; reflexivity|].
  eapply (closing_is_final radius
            [CallRead 8 (zeros 8) 0; CallWrite entry_at_3 [x01]]
            after_read (mkTally 1 0)).
  - reflexivity.
  - vm_compute. reflexivity.
Defined.

(** X12, example.  [acknowledging_a_read_restores_the_counter] on the first record of
    "ab\n\ncd\n\n". *)
Lemma acknowledging_a_read_restores_the_counter_example :
  exists r t,
    mod_read radius 7 (fresh 1024 ab_cd) (zeros 16) 0 = Returned r /\
    rr_packet_ctx r = Some t /\
    exists w,
      mod_write (rr_inst r) t [x01] = Returned w /\
      wr_ret w = Z.of_nat (length [x01]) /\
      outstanding (wr_inst w) = outstanding (fresh 1024 ab_cd) /\
      fd (wr_inst w) = fd (rr_inst r).
Proof.
  eexists. eexists. split; [vm_compute; reflexivity|].
  split; [reflexivity|].
  eapply (acknowledging_a_read_restores_the_counter
            radius 7 (fresh 1024 ab_cd) (zeros 16) 0).
  - vm_compute. split; [discriminate | reflexivity].
  - simpl. lia.
  - vm_compute. reflexivity.
  - reflexivity.
Defined.

(** X17, example.  [mod_decode_reuses_ids]: the two records of "ab\n\ncd\n\n", read
    through a 4-byte buffer with an acknowledgement in between, are
    both stamped with the ids 1. *)
Lemma mod_decode_reuses_ids_example :
  exists r1 t1 w r2 t2,
    mod_read radius 7 (fresh 1024 ab_cd) (zeros 4) 0 = Returned r1 /\
    rr_packet_ctx r1 = Some t1 /\
    mod_write (rr_inst r1) t1 [x01] = Returned w /\
    mod_read radius 8 (wr_inst w) (zeros 4) 0 = Returned r2 /\
    rr_packet_ctx r2 = Some t2 /\
    mod_decode (rr_inst r1) = (0, mkIds 1 1) /\
    mod_decode (rr_inst r2) = mod_decode (rr_inst r1).
Proof.
  do 5 eexists.
  split; [vm_compute; reflexivity|]. split; [reflexivity|].
  split; [vm_compute; reflexivity|].
  split; [vm_compute; reflexivity|]. split; [reflexivity|].
  eapply (mod_decode_reuses_ids radius 7 8 (fresh 1024 ab_cd)
                                (zeros 4) (zeros 4) [x01] 0 0).
  - vm_compute. split; [discriminate | reflexivity].
  - vm_compute. reflexivity.
  - reflexivity.
  - vm_compute. reflexivity.
  - vm_compute. discriminate.
  - vm_compute. reflexivity.
  - reflexivity.
Defined.

(** X13, example.  [mod_write_touches_only_the_marker] on the record
    marked at offset 3: the file keeps its 18 bytes, and the three bytes
    before the marker and the eleven behind it are those of the
    record. *)
Lemma mod_write_touches_only_the_marker_example :
  exists w,
    mod_write after_read entry_at_3 [x01] = Returned w /\
    f_data (fd (wr_inst w)) = rec_marked /\
    length (f_data (fd (wr_inst w))) = 18%nat /\
    firstn 3 (f_data (fd (wr_inst w))) = firstn 3 rec_timestamp /\
    skipn 7 (f_data (fd (wr_inst w))) = skipn 7 rec_timestamp.
Proof.
  eexists. split; [vm_compute; reflexivity|]. split; [reflexivity|].
  match goal with
  | |- length (f_data (fd (wr_inst ?w))) = _ /\ _ =>
      destruct (mod_write_touches_only_the_marker
                  after_read entry_at_3 [x01] w) as (Hin & _ & _);
      [vm_compute; reflexivity | apply Hin; vm_compute; lia]
  end.
Defined.

(** X14, example.  [outstanding_never_negative] on a read and its acknowledgement. *)
Lemma outstanding_never_negative_example :
  exists inst' t',
    drive radius (fresh 1024 ab_cd) (mkTally 0 0)
          [CallRead 7 (zeros 4) 0; CallWrite (mkEntry 7 0) [x01]]
    = Returned (inst', t') /\
    outstanding inst' = 0 /\
    0 <= outstanding inst' <= outstanding (fresh 1024 ab_cd) + 2.
Proof.
  eexists. eexists. split; [vm_compute; reflexivity|].
  split; [reflexivity|].
  eapply (outstanding_never_negative radius
            [CallRead 7 (zeros 4) 0; CallWrite (mkEntry 7 0) [x01]]
            (fresh 1024 ab_cd) (mkTally 0 0)).
  - vm_compute. discriminate.
  - vm_compute. reflexivity.
  - vm_compute. reflexivity.
Defined.

(** X16, example.  [mod_open_outcomes] on the work file: an all-zero instance becomes
    the instance [fresh], and a second [mod_open] stops. *)
Lemma mod_open_outcomes_example :
  exists o,
    mod_open work_dir (zeroed 1024) work_names = Returned o /\
    or_ret o = 0 /\
    or_inst o = fresh 1024 ab_cd /\
    mod_open work_dir (or_inst o) (or_names o) = Aborted.
Proof.
  destruct (mod_open_outcomes radius work_dir (zeroed 1024) work_names)
    as (o & Ho & _ & _ & _ & _ & _ & _ & Hm).
  - reflexivity.
  - exists o. split; [exact Ho|].
    destruct Hm as (_ & Hr & _ & Hf & Ha).
    split; [exact Hr|]. split; [apply Hf; reflexivity | exact Ha].
Defined.

(** X5, example.  [mod_read_skips_an_oversize_record] on "abcdefgh\n\nxy\n\n" with a
    maximum of 4: the first record, of 10 bytes, is dropped and "xy\n\n"
    is returned. *)
Lemma mod_read_skips_an_oversize_record_example :
  exists r,
    mod_read radius 7 (fresh 4 small_two_records) (zeros 32) 0 = Returned r /\
    rr_ret r = 4 /\
    firstn 4 (rr_buffer r) = [x78; x79; LF; LF] /\
    rr_leftover r = O /\
    rr_packet_ctx r = Some (mkEntry 7 0) /\
    outstanding (rr_inst r) = 1.
Proof.
  apply (mod_read_skips_an_oversize_record
           radius 7 (fresh 4 small_two_records) (zeros 32) 8 12).
  - reflexivity.
  - reflexivity.
  - reflexivity.
  - vm_compute. discriminate.
  - split; reflexivity.
  - no_eor_below 8.
  - vm_compute. reflexivity.
  - lia.
  - vm_compute. lia.
  - split; reflexivity.
  - intros j Hj [H1 H2].
    do 12 (destruct j as [|j];
           [first [lia | vm_compute in H1, H2;
                         first [discriminate H1 | discriminate H2]]|]).
    lia.
  - vm_compute. discriminate.
Defined.

(** X15, example.  [after_mod_detach] on the stream that had read three
    bytes: the next read returns -1 and leaves the buffer alone. *)
Lemma after_mod_detach_example :
  exists r,
    mod_read radius 7 (fst (mod_detach three_read)) buffer_ab_nl 3
    = Returned r /\
    rr_ret r = -1 /\ rr_buffer r = buffer_ab_nl /\ rr_leftover r = 3%nat /\
    rr_packet_ctx r = None /\
    outstanding (rr_inst r) = outstanding three_read /\
    header_offset (rr_inst r) = header_offset three_read.
Proof.
  destruct (after_mod_detach radius three_read) as (_ & _ & Hr & _).
  apply Hr.
  - reflexivity.
  - reflexivity.
  - vm_compute. lia.
Defined.
